(** * BulletproofCollection (src/lib/BpCollection.js): a shallow embedding

    The collection is a JavaScript class wrapping one built-in [Map].  Its
    methods are embedded as computations of a small state-and-exception
    monad over a store of collection objects, so that [this], the collection
    returned by [filter] and the exceptions thrown by the methods are all
    visible in the statements.

    Conventions of the embedding:
    - a JavaScript value is a [jsval]; numbers are the integer-valued ones
      (a [Z]), so [NaN], the infinities and the negative zero are outside the
      value universe, and objects are opaque references to plain objects
      (only writable data properties, [toString] inherited from
      [Object.prototype]);
    - user callbacks ([keyExtractor], the [fn] of [map] and [filter]) are
      pure total functions; the callback given to [forEach] threads the
      variables it captures as an accumulator and must not mutate the
      collection being traversed;
    - no listener is registered on the event emitter: [emit] only records
      the event;
    - the [disableWanings] accessor pair, which only stores a flag no other
      method reads, is left out. *)

From stdpp Require Import base list strings gmap pretty.
From Stdlib Require Import ZArith QArith Qround.

Local Open Scope Z_scope.

(** ** JavaScript values *)

Inductive jsval : Type :=
  | VUndefined
  | VNull
  | VBool (b : bool)
  | VNum (n : Z)
  | VStr (s : string)
  | VObj (r : nat).

Global Instance jsval_eq_dec : EqDecision jsval.
Proof. solve_decision. Defined.

(** [ToBoolean]: the truthiness test of [if (...)] and [Boolean(...)]. *)
Definition ToBoolean (v : jsval) : bool :=
  match v with
  | VUndefined | VNull => false
  | VBool b => b
  | VNum n => negb (n =? 0)
  | VStr s => negb (String.eqb s "")
  | VObj _ => true
  end.

(** [a === b].  Without [NaN] in the value universe, strict equality and the
    [SameValueZero] comparison of [Map] keys are both plain equality. *)
Definition strict_eq (a b : jsval) : bool := bool_decide (a = b).

(** [ToPropertyKey]: the string a value becomes when used as [obj[key]].
    A number is written in decimal, which is what [Number::toString] gives
    for an integer below [10^21] in magnitude. *)
Definition ToPropertyKey (key : jsval) : string :=
  match key with
  | VUndefined => "undefined"
  | VNull => "null"
  | VBool true => "true"
  | VBool false => "false"
  | VNum n => pretty n
  | VStr s => s
  | VObj _ => "[object Object]"
  end.

(** ** Errors *)

Inductive JsError : Type :=
  | ReadOnlyError (message : string)
  | IncompatibleConfigurationError (message : string)
  | InvalidArgumentsError (message : string)
  | EventsSupportError (message : string)
  | TypeError
  | ReferenceError.

Global Instance JsError_eq_dec : EqDecision JsError.
Proof. solve_decision. Defined.

Inductive result (A : Type) : Type :=
  | Ok (a : A)
  | Throw (e : JsError).
Arguments Ok {A} a.
Arguments Throw {A} e.

(** ** The built-in [Map]: entries in insertion order *)

Module JsMap.

Definition t : Type := list (jsval * jsval).

Definition empty : t := [].

Fixpoint get (k : jsval) (m : t) : jsval :=
  match m with
  | [] => VUndefined
  | (k', v') :: m' => if decide (k' = k) then v' else get k m'
  end.

Fixpoint has (k : jsval) (m : t) : bool :=
  match m with
  | [] => false
  | (k', _) :: m' => if decide (k' = k) then true else has k m'
  end.

(** An existing key keeps its entry (and so its position); a new key is
    appended. *)
Fixpoint set (k v : jsval) (m : t) : t :=
  match m with
  | [] => [(k, v)]
  | (k', v') :: m' =>
      if decide (k' = k) then (k', v) :: m' else (k', v') :: set k v m'
  end.

(** [delete] returns whether an entry was removed. *)
Fixpoint delete (k : jsval) (m : t) : bool * t :=
  match m with
  | [] => (false, [])
  | (k', v') :: m' =>
      if decide (k' = k) then (true, m')
      else let '(d, m'') := delete k m' in (d, (k', v') :: m'')
  end.

Definition size (m : t) : Z := Z.of_nat (length m).
Definition keys (m : t) : list jsval := m.*1.
Definition values (m : t) : list jsval := m.*2.
Definition entries (m : t) : list (jsval * jsval) := m.

End JsMap.

(** ** Plain objects, as far as [res[key] = value] on [{}] needs them

    [props] are the own enumerable properties; [proto] is [None] while the
    prototype is still [Object.prototype] and [Some v] once it was replaced
    through the [__proto__] accessor. *)

Record JsObject : Type := mkObject {
  props : gmap string jsval;
  proto : option jsval
}.

Definition empty_object : JsObject := mkObject ∅ None.

Definition is_object_or_null (v : jsval) : bool :=
  match v with
  | VNull | VObj _ => true
  | _ => false
  end.

(** [o[key] = value].  The property [__proto__] is an accessor inherited
    from [Object.prototype]: assigning to it sets the prototype when the
    value is an object or [null] and does nothing otherwise; it creates an
    own property only when [Object.prototype] is no longer on the chain. *)
Definition obj_set (o : JsObject) (key value : jsval) : JsObject :=
  let p := ToPropertyKey key in
  if decide (p = "__proto__") then
    match proto o with
    | Some VNull => mkObject (<[p := value]> (props o)) (proto o)
    | _ => if is_object_or_null value then mkObject (props o) (Some value)
           else o
    end
  else mkObject (<[p := value]> (props o)) (proto o).

(** ** The collection object and the store *)

Abbreviation loc := nat.

(** An emitted event: name, then the arguments [(value, key, this)]. *)
Definition event : Type := string * jsval * jsval * loc.

Record EventEmitter : Type := mkEmitter {
  emitted : list event
}.

Record BpCollectionConfig : Type := mkConfig {
  keyExtractor : option (jsval -> jsval);
  enableEvents : jsval
}.

Definition defaultBulletproofConfig : BpCollectionConfig :=
  {| keyExtractor := None; enableEvents := VBool false |}.

Record BulletproofCollection : Type := mkCollection {
  __bulletproof__ : bool;
  _keyExtractor : option (jsval -> jsval);
  _enableEvents : bool;
  _ec : option EventEmitter;
  _map : JsMap.t
}.

Definition with_map (c : BulletproofCollection) (m : JsMap.t)
  : BulletproofCollection :=
  {| __bulletproof__ := __bulletproof__ c;
     _keyExtractor := _keyExtractor c;
     _enableEvents := _enableEvents c;
     _ec := _ec c;
     _map := m |}.

Definition with_ec (c : BulletproofCollection) (ec : option EventEmitter)
  : BulletproofCollection :=
  {| __bulletproof__ := __bulletproof__ c;
     _keyExtractor := _keyExtractor c;
     _enableEvents := _enableEvents c;
     _ec := ec;
     _map := _map c |}.

Abbreviation heap := (gmap loc BulletproofCollection).

(** ** The monad: a store of collections, and exceptions *)

Definition M (A : Type) : Type := heap -> result A * heap.

Definition ret {A} (a : A) : M A := fun h => (Ok a, h).

Definition throw {A} (e : JsError) : M A := fun h => (Throw e, h).

Definition bind {A B} (m : M A) (k : A -> M B) : M B :=
  fun h =>
    match m h with
    | (Ok a, h') => k a h'
    | (Throw e, h') => (Throw e, h')
    end.

Notation "'let*' x ':=' m 'in' k" := (bind m (fun x => k))
  (at level 10, x pattern, m at level 100, k at level 200).
Notation "m1 ;;; m2" := (bind m1 (fun _ => m2))
  (at level 100, m2 at level 200, right associativity).

(** Allocation of a new object. *)
Definition alloc (c : BulletproofCollection) : M loc :=
  fun h => let l := fresh (dom h) in (Ok l, <[l := c]> h).

(** Reading and writing the object behind a reference.  References come
    from [alloc], so the missing case does not arise from the methods. *)
Definition deref (this : loc) : M BulletproofCollection :=
  fun h =>
    match h !! this with
    | Some c => (Ok c, h)
    | None => (Throw ReferenceError, h)
    end.

Definition update (this : loc) (f : BulletproofCollection -> BulletproofCollection)
  : M unit :=
  fun h =>
    match h !! this with
    | Some c => (Ok tt, <[this := f c]> h)
    | None => (Throw ReferenceError, h)
    end.

(** A mutation of the object that also returns a result, such as
    [this._map.delete(k)]. *)
Definition modify {A} (this : loc)
    (f : BulletproofCollection -> A * BulletproofCollection) : M A :=
  fun h =>
    match h !! this with
    | Some c => (Ok (f c).1, <[this := (f c).2]> h)
    | None => (Throw ReferenceError, h)
    end.

(** ** Error classes

    [new ReadOnlyError(propName, customMsg)]: the derived constructor calls
    [super] only when one of its arguments is truthy; otherwise reading
    [this] fails with a [ReferenceError]. *)
Definition new_ReadOnlyError (propName customMsg : option string) : M JsError :=
  match propName with
  | Some p =>
      if ToBoolean (VStr p)
      then ret (ReadOnlyError ("'" +:+ p +:+ "' is a read-only property."))
      else match customMsg with
           | Some msg => if ToBoolean (VStr msg) then ret (ReadOnlyError msg)
                         else throw ReferenceError
           | None => throw ReferenceError
           end
  | None =>
      match customMsg with
      | Some msg => if ToBoolean (VStr msg) then ret (ReadOnlyError msg)
                    else throw ReferenceError
      | None => throw ReferenceError
      end
  end.

Definition new_InvalidArgumentsError (message : string) : M JsError :=
  ret (InvalidArgumentsError message).

Definition new_IncompatibleConfigurationError (message : string) : M JsError :=
  ret (IncompatibleConfigurationError message).

Definition new_EventsSupportError (customMsg : option string) : M JsError :=
  match customMsg with
  | Some msg => if ToBoolean (VStr msg) then ret (EventsSupportError msg)
                else ret (EventsSupportError "Events are not supported.")
  | None => ret (EventsSupportError "Events are not supported.")
  end.

(** [randomBetween(min, max)], with [rnd] the number [Math.random()]
    returns; [Math.ceil] and [Math.floor] leave the integer bounds alone. *)
Definition randomBetween (rnd : Q) (min max : Z) : Z :=
  Qfloor (rnd * inject_Z (max - min + 1)) + min.

(** [this._ec.emit(name, value, key, this)] *)
Definition record_event (this : loc) (name : string) (value key : jsval)
    (c : BulletproofCollection) : BulletproofCollection :=
  match _ec c with
  | Some ec =>
      with_ec c (Some (mkEmitter (emitted ec ++ [(name, value, key, this)])))
  | None => c
  end.

Definition emit (this : loc) (name : string) (value key : jsval) : M unit :=
  update this (record_event this name value key).

(** The counting loops of [index], [indexToKey], [keyToIndex], [indexOf]. *)
Fixpoint nth_loop (xs : list jsval) (c : Z) (i : jsval) : jsval :=
  match xs with
  | [] => VUndefined
  | x :: xs' => if strict_eq (VNum c) i then x else nth_loop xs' (c + 1) i
  end.

Fixpoint find_loop (xs : list jsval) (c : Z) (x : jsval) : jsval :=
  match xs with
  | [] => VUndefined
  | x' :: xs' => if strict_eq x x' then VNum c else find_loop xs' (c + 1) x
  end.


(** [Map.prototype.forEach] over a snapshot of the entries; the callback
    receives [(value, key)] after its accumulator. *)
Fixpoint Map_forEach {A} (m : JsMap.t) (cb : A -> jsval -> jsval -> M A) (a : A)
  : M A :=
  match m with
  | [] => ret a
  | (k, v) :: m' => let* a' := cb a v k in Map_forEach m' cb a'
  end.

(** ** class BulletproofCollection *)

Section BulletproofCollection.

(** Whether the module-level constant [EventCenter] is defined, that is
    whether [require('events')] was available when the module loaded. *)
Variable EventCenter : bool.

(** [reset()]: both branches leave [this._map] an empty [Map]. *)
Definition reset (this : loc) : M unit :=
  update this (fun c => with_map c JsMap.empty).

Definition activateEvents (this : loc) : M unit :=
  if EventCenter
  then update this (fun c => with_ec c (Some (mkEmitter [])))
  else let* e := new_EventsSupportError None in throw e.

(** [new BulletproofCollection(config)].  An absent [config] makes the
    first property read, [config.keyExtractor], fail. *)
Definition constructor (config : option BpCollectionConfig) : M loc :=
  let* this := alloc {| __bulletproof__ := true;
                        _keyExtractor := None;
                        _enableEvents := false;
                        _ec := None;
                        _map := JsMap.empty |} in
  match config with
  | None => throw TypeError
  | Some config =>
      update this (fun c =>
        {| __bulletproof__ := __bulletproof__ c;
           _keyExtractor := keyExtractor config;
           _enableEvents := ToBoolean (enableEvents config);
           _ec := _ec c;
           _map := _map c |}) ;;;
      let* c := deref this in
      (if _enableEvents c then activateEvents this else ret tt) ;;;
      reset this ;;;
      ret this
  end.

(** *** Property getters and setters *)

Definition get_size (this : loc) : M Z :=
  let* c := deref this in ret (JsMap.size (_map c)).

Definition set_size (this : loc) (s : jsval) : M unit :=
  let* e := new_ReadOnlyError (Some "size") None in throw e.

Definition get_lastIndex (this : loc) : M jsval :=
  let* s := get_size this in
  if s =? 0 then ret VUndefined
  else let* s' := get_size this in ret (VNum (s' - 1)).

Definition set_lastIndex (this : loc) (i : jsval) : M unit :=
  let* e := new_ReadOnlyError (Some "lastIndex") None in throw e.

(** [this[Symbol.iterator]()], drained: the values in iteration order. *)
Definition iterator (this : loc) : M (list jsval) :=
  let* c := deref this in ret (JsMap.values (_map c)).

Definition _keys (this : loc) : M (list jsval) :=
  let* c := deref this in ret (JsMap.keys (_map c)).

Definition get_keys (this : loc) : M (list jsval) := _keys this.

Definition set_keys (this : loc) (k : jsval) : M unit :=
  let* e := new_ReadOnlyError (Some "keys") None in throw e.

Definition _keysAndValues (this : loc) : M (list (jsval * jsval)) :=
  let* c := deref this in ret (JsMap.entries (_map c)).

Definition get_keysAndValues (this : loc) : M (list (jsval * jsval)) :=
  _keysAndValues this.

Definition set_keysAndValues (this : loc) (k : jsval) : M unit :=
  let* e := new_ReadOnlyError (Some "keysAndValues") None in throw e.

(** [this[Symbol.iterator]().next().value] *)
Definition get_first (this : loc) : M jsval :=
  let* vs := iterator this in
  ret (match vs with [] => VUndefined | v :: _ => v end).

Definition set_first (this : loc) (f : jsval) : M unit :=
  let* e := new_ReadOnlyError (Some "first") None in throw e.

Definition index (this : loc) (i : jsval) : M jsval :=
  let* vs := iterator this in ret (nth_loop vs 0 i).

Definition get_last (this : loc) : M jsval :=
  let* lastIndex := get_lastIndex this in
  if negb (strict_eq lastIndex VUndefined) then index this lastIndex
  else ret VUndefined.

Definition set_last (this : loc) (l : jsval) : M unit :=
  let* e := new_ReadOnlyError (Some "last") None in throw e.

(** *** Basic methods *)

Definition addCustom (this : loc) (key value : jsval) : M loc :=
  if strict_eq key VUndefined then
    let* e := new_InvalidArgumentsError "'undefined' keys are not allowed." in
    throw e
  else
    update this (fun c => with_map c (JsMap.set key value (_map c))) ;;;
    let* c := deref this in
    match _ec c with
    | Some _ => emit this "add" value key
    | None => ret tt
    end ;;;
    ret this.

(** [this._keyExtractor(value)] on an absent extractor is a call of
    [undefined]. *)
Definition add (this : loc) (value : jsval) : M loc :=
  let* c := deref this in
  match _keyExtractor c with
  | Some extract => addCustom this (extract value) value
  | None => throw TypeError
  end.

Definition key (this : loc) (k : jsval) : M jsval :=
  let* c := deref this in ret (JsMap.get k (_map c)).

Definition indexToKey (this : loc) (i : jsval) : M jsval :=
  let* ks := get_keys this in ret (nth_loop ks 0 i).

Definition keyToIndex (this : loc) (k : jsval) : M jsval :=
  let* ks := get_keys this in ret (find_loop ks 0 k).



Definition hasKey (this : loc) (k : jsval) : M bool :=
  let* c := deref this in ret (JsMap.has k (_map c)).

Definition hasIndex (this : loc) (i : Z) : M bool :=
  let* s := get_size this in ret ((0 <=? i) && (i <? s)).

Definition removeKey (this : loc) (k : jsval) : M jsval :=
  let* value := key this k in
  let* deleted :=
    modify this (fun c => let '(deleted, m') := JsMap.delete k (_map c) in
                          (deleted, with_map c m')) in
  let* c := deref this in
  match deleted, _ec c with
  | true, Some _ => emit this "remove" value k
  | _, _ => ret tt
  end ;;;
  ret value.

Definition removeIndex (this : loc) (i : jsval) : M jsval :=
  let* k := indexToKey this i in removeKey this k.

(** [rnd] is what [Math.random()] returns if it is called. *)
Definition randomKey (this : loc) (rnd : Q) : M jsval :=
  let* s := get_size this in
  if ToBoolean (VNum s) then
    let* lastIndex := get_lastIndex this in
    match lastIndex with
    | VNum max => indexToKey this (VNum (randomBetween rnd 0 max))
    | _ => ret VUndefined
    end
  else ret VUndefined.

Definition random (this : loc) (rnd : Q) : M jsval :=
  let* k := randomKey this rnd in key this k.

Definition pullRandomKey (this : loc) (rnd : Q) : M jsval :=
  let* randKey := randomKey this rnd in
  removeKey this randKey ;;;
  ret randKey.

Definition pullRandom (this : loc) (rnd : Q) : M jsval :=
  let* k := randomKey this rnd in removeKey this k.

(** *** Iteration utilities

    [fn.call(thisArg, value, key, this)]: a callback takes [thisArg]
    first.  The callback of [forEach] also takes and returns the
    variables it captures. *)

Definition forEach {A} (this : loc)
    (fn : jsval -> A -> jsval -> jsval -> loc -> M A)
    (thisArg : jsval) (a : A) : M A :=
  let* c := deref this in
  Map_forEach (_map c) (fun a value k => fn thisArg a value k this) a.

Definition map (this : loc) (fn : jsval -> jsval -> jsval -> loc -> jsval)
    (thisArg : jsval) : M (list jsval) :=
  forEach this
    (fun _ res value k bpc => ret (res ++ [fn thisArg value k bpc]))
    VUndefined [].

Definition filter (this : loc) (fn : jsval -> jsval -> jsval -> loc -> jsval)
    (thisArg : jsval) : M loc :=
  let* c := deref this in
  let* res := constructor (Some {| keyExtractor := _keyExtractor c;
                                   enableEvents := VUndefined |}) in
  forEach this
    (fun _ (_ : unit) value k bpc =>
       if ToBoolean (fn thisArg value k bpc)
       then addCustom res k value ;;; ret tt
       else ret tt)
    VUndefined tt ;;;
  ret res.

Definition filterToArray (this : loc)
    (fn : jsval -> jsval -> jsval -> loc -> jsval)
    (thisArg : jsval) : M (list jsval) :=
  forEach this
    (fun _ res value k bpc =>
       if ToBoolean (fn thisArg value k bpc) then ret (res ++ [value])
       else ret res)
    VUndefined [].

Definition toObject (this : loc) : M JsObject :=
  forEach this
    (fun _ res value k _ => ret (obj_set res k value))
    VUndefined empty_object.

Definition toMap (this : loc) : M JsMap.t :=
  forEach this
    (fun _ res value k _ => ret (JsMap.set k value res))
    VUndefined JsMap.empty.

End BulletproofCollection.

(** * Vocabulary of the statements *)

(** A call that returns [a] and leaves the whole store as it was. *)
Definition returns {A} (m : M A) (h : heap) (a : A) : Prop := m h = (Ok a, h).

(** A well-formed collection: the representation invariant of the
    association list behind [_map] (a [Map] has no duplicate key) together
    with the invariant the class maintains (no key is [undefined]). *)
Definition wf (c : BulletproofCollection) : Prop :=
  NoDup (JsMap.keys (_map c)) /\ VUndefined ∉ JsMap.keys (_map c).

Global Instance wf_dec c : Decision (wf c).
Proof. unfold wf. apply _. Defined.

Definition heap_wf (h : heap) : Prop := forall l c, h !! l = Some c -> wf c.

(** The object a successful [new BulletproofCollection(config)] creates. *)
Definition new_collection (config : BpCollectionConfig) : BulletproofCollection :=
  {| __bulletproof__ := true;
     _keyExtractor := keyExtractor config;
     _enableEvents := ToBoolean (enableEvents config);
     _ec := if ToBoolean (enableEvents config) then Some (mkEmitter []) else None;
     _map := [] |}.

(** The configuration [filter] passes to the constructor:
    [{keyExtractor: this._keyExtractor}]. *)
Definition filter_config (c : BulletproofCollection) : BpCollectionConfig :=
  {| keyExtractor := _keyExtractor c; enableEvents := VUndefined |}.

(** The predicate of [filter] and [filterToArray] on an entry. *)
Definition keeps (fn : jsval -> jsval -> jsval -> loc -> jsval)
    (thisArg : jsval) (bpc : loc) (kv : jsval * jsval) : bool :=
  ToBoolean (fn thisArg kv.2 kv.1 bpc).

(** A call is [safe] when every collection already in the store is still
    there afterwards, with the key extractor and the events flag it was
    constructed with and still well formed if it was, and every collection
    the call created is well formed.  This is asked whether the call
    returns or throws. *)
Definition evolves (c c' : BulletproofCollection) : Prop :=
  _keyExtractor c' = _keyExtractor c /\
  _enableEvents c' = _enableEvents c /\
  (wf c -> wf c').

Definition safe {A} (m : M A) : Prop :=
  forall h : heap,
    (forall l c, h !! l = Some c ->
       exists c', (m h).2 !! l = Some c' /\ evolves c c') /\
    (forall l c', (m h).2 !! l = Some c' -> h !! l = None -> wf c').

(** The calls of the public interface that can change the store, on any
    reference.  A client may catch what a call throws and go on, so a
    sequence of calls continues from the store the call left. *)
Inductive call : Type :=
  | CallNew (config : option BpCollectionConfig)
  | CallReset (this : loc)
  | CallActivateEvents (this : loc)
  | CallAdd (this : loc) (value : jsval)
  | CallAddCustom (this : loc) (key value : jsval)
  | CallRemoveKey (this : loc) (k : jsval)
  | CallRemoveIndex (this : loc) (i : jsval)
  | CallPullRandomKey (this : loc) (rnd : Q)
  | CallPullRandom (this : loc) (rnd : Q)
  | CallFilter (this : loc) (fn : jsval -> jsval -> jsval -> loc -> jsval)
      (thisArg : jsval).

Definition perform (EventCenter : bool) (cl : call) (h : heap) : heap :=
  match cl with
  | CallNew config => (constructor EventCenter config h).2
  | CallReset this => (reset this h).2
  | CallActivateEvents this => (activateEvents EventCenter this h).2
  | CallAdd this value => (add this value h).2
  | CallAddCustom this k value => (addCustom this k value h).2
  | CallRemoveKey this k => (removeKey this k h).2
  | CallRemoveIndex this i => (removeIndex this i h).2
  | CallPullRandomKey this rnd => (pullRandomKey this rnd h).2
  | CallPullRandom this rnd => (pullRandom this rnd h).2
  | CallFilter this fn thisArg => (filter EventCenter this fn thisArg h).2
  end.

Definition perform_all (EventCenter : bool) (cls : list call) (h : heap) : heap :=
  foldl (fun h cl => perform EventCenter cl h) h cls.

(** The round trip of the specification through [toObject()]: the pairs of
    the object, which are its own enumerable properties (an
    [Object.entries]), are inserted with [addCustom] into another, empty
    collection.  The order in which an object lists its properties is not
    modelled; statements about the pairs hold for every order. *)
Definition enumerates (pairs : list (string * jsval)) (o : JsObject) : Prop :=
  pairs ≡ₚ map_to_list (props o).

Fixpoint reinsert (copy : loc) (pairs : list (string * jsval)) : M unit :=
  match pairs with
  | [] => ret tt
  | (p, v) :: pairs' => addCustom copy (VStr p) v ;;; reinsert copy pairs'
  end.

(** The keys that are their own property key and create an own property:
    the strings other than [__proto__]. *)
Definition is_plain_string_key (k : jsval) : bool :=
  match k with
  | VStr s => negb (String.eqb s "__proto__")
  | _ => false
  end.

Definition property_of (kv : jsval * jsval) : string * jsval :=
  (ToPropertyKey kv.1, kv.2).

Definition entry_of (pv : string * jsval) : jsval * jsval := (VStr pv.1, pv.2).

(** A client that calls [pullRandomKey()] once per draw of [Math.random]
    and collects the keys it is given. *)
Fixpoint pullRandomKeys (this : loc) (rnds : list Q) : M (list jsval) :=
  match rnds with
  | [] => ret []
  | rnd :: rnds' =>
      let* k := pullRandomKey this rnd in
      let* ks := pullRandomKeys this rnds' in
      ret (k :: ks)
  end.

(** What [Math.random()] may return: a number in [[0, 1)]. *)
Definition is_random (rnd : Q) : Prop := (0 <= rnd)%Q /\ (rnd < 1)%Q.

(** * Properties *)

(** ** Running computations *)

Lemma bind_ok {A B} (m : M A) (k : A -> M B) h a h' :
  m h = (Ok a, h') -> bind m k h = k a h'.
Proof. unfold bind. by intros ->. Qed.

Lemma bind_throw {A B} (m : M A) (k : A -> M B) h e h' :
  m h = (Throw e, h') -> bind m k h = (Throw e, h').
Proof. unfold bind. by intros ->. Qed.

Lemma deref_ok h this c : h !! this = Some c -> deref this h = (Ok c, h).
Proof. unfold deref. by intros ->. Qed.

Lemma update_ok h this c f :
  h !! this = Some c -> update this f h = (Ok tt, <[this := f c]> h).
Proof. unfold update. by intros ->. Qed.

Lemma modify_ok {A} h this c (f : BulletproofCollection -> A * BulletproofCollection) :
  h !! this = Some c -> modify this f h = (Ok (f c).1, <[this := (f c).2]> h).
Proof. unfold modify. by intros ->. Qed.

Lemma emit_ok h this c name v k :
  h !! this = Some c ->
  emit this name v k h = (Ok tt, <[this := record_event this name v k c]> h).
Proof. apply update_ok. Qed.

(** ** The [Map] model *)

Module JsMapFacts.
Import JsMap.

Ltac cases := repeat (case_decide; simplify_eq/=); try done.

Lemma has_elem_of k m : has k m = true <-> k ∈ keys m.
Proof.
  unfold keys. induction m as [|[k' v'] m IH]; simpl.
  - split; [done | by intros ?%elem_of_nil].
  - rewrite elem_of_cons. case_decide as E; subst.
    + split; [by left | done].
    + rewrite IH. split; [by right | by intros [?|?]].
Qed.

Lemma has_false_not_elem_of k m : has k m = false <-> k ∉ keys m.
Proof. rewrite <- has_elem_of. by destruct (has k m). Qed.

Lemma get_set_eq k v m : get k (set k v m) = v.
Proof. induction m as [|[k' v'] m IH]; simpl; cases. Qed.

Lemma get_set_ne k k' v m : k ≠ k' -> get k' (set k v m) = get k' m.
Proof. intros Hne. induction m as [|[k0 v0] m IH]; simpl; cases. Qed.

Lemma has_set_eq k v m : has k (set k v m) = true.
Proof. induction m as [|[k' v'] m IH]; simpl; cases. Qed.

Lemma has_set_ne k k' v m : k ≠ k' -> has k' (set k v m) = has k' m.
Proof. intros Hne. induction m as [|[k0 v0] m IH]; simpl; cases. Qed.

(** Overwriting keeps every key where it is. *)
Lemma keys_set_present k v m : has k m = true -> keys (set k v m) = keys m.
Proof.
  unfold keys. induction m as [|[k' v'] m IH]; csimpl; [done|].
  case_decide; csimpl; [done|]. intros H'. f_equal. by apply IH.
Qed.

(** A new key goes to the end. *)
Lemma set_absent k v m : has k m = false -> set k v m = m ++ [(k, v)].
Proof.
  induction m as [|[k' v'] m IH]; simpl; [done|].
  case_decide; [done|]. intros H'. by rewrite IH.
Qed.

Lemma size_set k v m :
  size (set k v m) = if has k m then size m else size m + 1.
Proof.
  unfold size. destruct (has k m) eqn:E.
  - f_equal. rewrite <- !(length_fmap fst).
    change (length (keys (set k v m)) = length (keys m)).
    by rewrite keys_set_present.
  - rewrite set_absent by done. rewrite length_app. simpl. lia.
Qed.

Lemma get_absent k m : has k m = false -> get k m = VUndefined.
Proof. induction m as [|[k' v'] m IH]; simpl; cases. Qed.

Lemma delete_fst k m : (delete k m).1 = has k m.
Proof.
  induction m as [|[k' v'] m IH]; simpl; [done|].
  case_decide; [done|]. by destruct (delete k m).
Qed.

Lemma delete_absent k m : has k m = false -> delete k m = (false, m).
Proof.
  induction m as [|[k' v'] m IH]; simpl; [done|].
  case_decide; [done|]. intros H'. by rewrite IH.
Qed.

Lemma keys_delete k m x : x ∈ keys (delete k m).2 -> x ∈ keys m.
Proof.
  unfold keys. induction m as [|[k' v'] m IH]; csimpl; [done|].
  case_decide; csimpl.
  - by right.
  - destruct (delete k m) as [d m'] eqn:E. csimpl in *.
    rewrite !elem_of_cons. intros [?|?]; [by left | right; by apply IH].
Qed.

Lemma has_delete_NoDup k m :
  NoDup (keys m) -> has k (delete k m).2 = false.
Proof.
  unfold keys. induction m as [|[k' v'] m IH]; csimpl; [done|].
  intros [Hk Hm]%NoDup_cons. case_decide; csimpl; subst.
  - by apply has_false_not_elem_of.
  - destruct (delete k m) as [d m'] eqn:E. csimpl in *.
    rewrite decide_False by done. by apply IH.
Qed.

Lemma size_delete_present k m :
  has k m = true -> size (delete k m).2 = size m - 1.
Proof.
  unfold size. induction m as [|[k' v'] m IH]; simpl; [done|].
  case_decide; simpl; [lia|]. intros H'.
  destruct (delete k m) as [d m'] eqn:E. simpl in *.
  specialize (IH H'). lia.
Qed.

Lemma NoDup_set k v m : NoDup (keys m) -> NoDup (keys (set k v m)).
Proof.
  intros Hm. destruct (has k m) eqn:E.
  - by rewrite keys_set_present.
  - rewrite set_absent by done. unfold keys in *. rewrite fmap_app.
    apply NoDup_app. split; [done|]. split; [|apply NoDup_singleton].
    intros x Hx ->%list_elem_of_singleton.
    by apply has_false_not_elem_of in E.
Qed.

Lemma NoDup_delete k m : NoDup (keys m) -> NoDup (keys (delete k m).2).
Proof.
  unfold keys. induction m as [|[k' v'] m IH]; csimpl; [done|].
  intros [Hk Hm]%NoDup_cons. case_decide; csimpl; [done|].
  pose proof (keys_delete k m k') as Hsub.
  destruct (delete k m) as [d m'] eqn:E. csimpl in *.
  apply NoDup_cons. split; [|by apply IH].
  intros Hin. by apply Hk, Hsub.
Qed.

End JsMapFacts.

(** ** [randomBetween] stays within its bounds *)

Lemma randomBetween_range (rnd : Q) (min max : Z) :
  (0 <= rnd)%Q -> (rnd < 1)%Q -> min <= max ->
  min <= randomBetween rnd min max <= max.
Proof.
  intros H0 H1 Hle. unfold randomBetween.
  set (n := max - min + 1). assert (Hn : 0 < n) by (unfold n; lia).
  assert (Hn' : (0 < inject_Z n)%Q) by (rewrite <- (Zlt_Qlt 0); exact Hn).
  assert (Hlo : 0 <= Qfloor (rnd * inject_Z n)).
  { change 0 with (Qfloor (inject_Z 0)). apply Qfloor_resp_le.
    apply Qmult_le_0_compat; [exact H0 | by apply Qlt_le_weak]. }
  assert (Hhi : Qfloor (rnd * inject_Z n) < n).
  { rewrite Zlt_Qlt. eapply Qle_lt_trans; [apply Qfloor_le|].
    rewrite <- (Qmult_1_l (inject_Z n)) at 2. by apply Qmult_lt_r. }
  lia.
Qed.

(** ** Record updates *)

Lemma with_map_id c : with_map c (_map c) = c.
Proof. by destruct c. Qed.

Lemma with_map_with_map c m m' : with_map (with_map c m) m' = with_map c m'.
Proof. reflexivity. Qed.

Lemma record_event_map this name v k c :
  _map (record_event this name v k c) = _map c.
Proof. unfold record_event. by destruct (_ec c). Qed.

Lemma record_event_no_emitter this name v k c :
  _ec c = None -> record_event this name v k c = c.
Proof. unfold record_event. by intros ->. Qed.

Lemma record_event_keyExtractor this name v k c :
  _keyExtractor (record_event this name v k c) = _keyExtractor c.
Proof. unfold record_event. by destruct (_ec c). Qed.

(** ** What each method does to the store *)

Section Runs.
Context (h : heap) (this : loc) (c : BulletproofCollection).
Hypothesis Hthis : h !! this = Some c.

Lemma get_size_run : returns (get_size this) h (JsMap.size (_map c)).
Proof. unfold returns, get_size. by rewrite (bind_ok _ _ _ _ _ (deref_ok _ _ _ Hthis)). Qed.

Lemma key_run k : returns (key this k) h (JsMap.get k (_map c)).
Proof. unfold returns, key. by rewrite (bind_ok _ _ _ _ _ (deref_ok _ _ _ Hthis)). Qed.

Lemma hasKey_run k : returns (hasKey this k) h (JsMap.has k (_map c)).
Proof. unfold returns, hasKey. by rewrite (bind_ok _ _ _ _ _ (deref_ok _ _ _ Hthis)). Qed.

Lemma iterator_run : returns (iterator this) h (JsMap.values (_map c)).
Proof. unfold returns, iterator. by rewrite (bind_ok _ _ _ _ _ (deref_ok _ _ _ Hthis)). Qed.

Lemma get_keys_run : returns (get_keys this) h (JsMap.keys (_map c)).
Proof. unfold returns, get_keys, _keys. by rewrite (bind_ok _ _ _ _ _ (deref_ok _ _ _ Hthis)). Qed.

Lemma get_keysAndValues_run :
  returns (get_keysAndValues this) h (JsMap.entries (_map c)).
Proof.
  unfold returns, get_keysAndValues, _keysAndValues.
  by rewrite (bind_ok _ _ _ _ _ (deref_ok _ _ _ Hthis)).
Qed.

Lemma keyToIndex_run k :
  returns (keyToIndex this k) h (find_loop (JsMap.keys (_map c)) 0 k).
Proof. unfold returns, keyToIndex. by rewrite (bind_ok _ _ _ _ _ get_keys_run). Qed.

Lemma indexToKey_run i :
  returns (indexToKey this i) h (nth_loop (JsMap.keys (_map c)) 0 i).
Proof. unfold returns, indexToKey. by rewrite (bind_ok _ _ _ _ _ get_keys_run). Qed.

Lemma index_run i :
  returns (index this i) h (nth_loop (JsMap.values (_map c)) 0 i).
Proof. unfold returns, index. by rewrite (bind_ok _ _ _ _ _ iterator_run). Qed.

Lemma get_lastIndex_run :
  returns (get_lastIndex this) h
    (if JsMap.size (_map c) =? 0 then VUndefined
     else VNum (JsMap.size (_map c) - 1)).
Proof.
  unfold returns, get_lastIndex. rewrite (bind_ok _ _ _ _ _ get_size_run).
  destruct (JsMap.size (_map c) =? 0); [done|].
  by rewrite (bind_ok _ _ _ _ _ get_size_run).
Qed.

Lemma addCustom_undefined v :
  addCustom this VUndefined v h
  = (Throw (InvalidArgumentsError "'undefined' keys are not allowed."), h).
Proof. reflexivity. Qed.

Lemma addCustom_run k v :
  k ≠ VUndefined ->
  addCustom this k v h
  = (Ok this,
     <[this := record_event this "add" v k
                 (with_map c (JsMap.set k v (_map c)))]> h).
Proof.
  intros Hk. unfold addCustom, strict_eq.
  rewrite bool_decide_eq_false_2 by done.
  rewrite (bind_ok _ _ _ _ _ (update_ok _ _ _ _ Hthis)).
  set (c1 := with_map c _). set (h1 := <[this := c1]> h).
  assert (H1 : h1 !! this = Some c1) by apply lookup_insert_eq.
  rewrite (bind_ok _ _ _ _ _ (deref_ok _ _ _ H1)).
  destruct (_ec c1) as [ec|] eqn:Hec.
  - rewrite (bind_ok _ _ _ _ _ (emit_ok _ _ _ _ _ _ H1)).
    unfold ret, h1. by rewrite insert_insert_eq.
  - unfold bind, ret. by rewrite record_event_no_emitter.
Qed.

Lemma removeKey_run k :
  removeKey this k h
  = (Ok (JsMap.get k (_map c)),
     <[this := (if JsMap.has k (_map c)
                then record_event this "remove" (JsMap.get k (_map c)) k
                else id)
                 (with_map c (JsMap.delete k (_map c)).2)]> h).
Proof.
  unfold removeKey. rewrite (bind_ok _ _ _ _ _ (key_run k)).
  rewrite (bind_ok _ _ _ _ _ (modify_ok _ _ _ _ Hthis)).
  rewrite <- (JsMapFacts.delete_fst k (_map c)).
  destruct (JsMap.delete k (_map c)) as [deleted m'] eqn:Hdel. simpl.
  set (c1 := with_map c m'). set (h1 := <[this := c1]> h).
  assert (H1 : h1 !! this = Some c1) by apply lookup_insert_eq.
  rewrite (bind_ok _ _ _ _ _ (deref_ok _ _ _ H1)).
  destruct deleted, (_ec c1) as [ec|] eqn:Hec.
  - rewrite (bind_ok _ _ _ _ _ (emit_ok _ _ _ _ _ _ H1)).
    unfold ret, h1. by rewrite insert_insert_eq.
  - unfold bind, ret. by rewrite record_event_no_emitter.
  - done.
  - done.
Qed.

(** A removal that finds nothing leaves the store as it was. *)
Lemma removeKey_absent k :
  JsMap.has k (_map c) = false -> returns (removeKey this k) h VUndefined.
Proof.
  intros Hk. unfold returns. rewrite removeKey_run, Hk.
  rewrite JsMapFacts.get_absent, JsMapFacts.delete_absent by done.
  simpl. rewrite with_map_id. by rewrite insert_id.
Qed.

End Runs.

(** ** Insertion *)

Lemma find_loop_set_present k v m x n :
  JsMap.has k m = true ->
  find_loop (JsMap.keys (JsMap.set k v m)) n x = find_loop (JsMap.keys m) n x.
Proof. intros Hk. by rewrite JsMapFacts.keys_set_present. Qed.

(** C2.  For every key [k] other than [undefined] (so in particular for
    every non-absent key) and every value [v], [addCustom(k, v)] returns the
    collection and afterwards [key(k)] returns [v] and [hasKey(k)] is true;
    [size] grows by exactly one when [k] was not present and stays the same
    when it was; a new key goes to the end of the key sequence, and an
    overwritten key keeps its position: the key sequence and [keyToIndex(k)]
    are what they were. *)
Theorem addCustom_postcondition (h : heap) this c k v :
  h !! this = Some c ->
  k ≠ VUndefined ->
  exists h',
    addCustom this k v h = (Ok this, h') /\
    returns (key this k) h' v /\
    returns (hasKey this k) h' true /\
    exists (n : Z) (present : bool) (ks : list jsval),
      returns (get_size this) h n /\
      returns (hasKey this k) h present /\
      returns (get_keys this) h ks /\
      returns (get_size this) h' (if present then n else n + 1) /\
      returns (get_keys this) h' (if present then ks else ks ++ [k]) /\
      (present = true ->
       (keyToIndex this k h').1 = (keyToIndex this k h).1).
Proof.
  intros Hthis Hk. eexists. split; [by apply addCustom_run|].
  set (c' := record_event this "add" v k _).
  assert (Hc' : (<[this := c']> h) !! this = Some c') by apply lookup_insert_eq.
  assert (Hmap : _map c' = JsMap.set k v (_map c))
    by (unfold c'; by rewrite record_event_map).
  split; [|split].
  - pose proof (key_run _ _ _ Hc' k) as Hrun.
    by rewrite Hmap, JsMapFacts.get_set_eq in Hrun.
  - pose proof (hasKey_run _ _ _ Hc' k) as Hrun.
    by rewrite Hmap, JsMapFacts.has_set_eq in Hrun.
  - exists (JsMap.size (_map c)), (JsMap.has k (_map c)), (JsMap.keys (_map c)).
    split; [by apply get_size_run|].
    split; [by apply hasKey_run|].
    split; [by apply get_keys_run|].
    split; [|split].
    + pose proof (get_size_run _ _ _ Hc') as Hrun.
      by rewrite Hmap, JsMapFacts.size_set in Hrun.
    + pose proof (get_keys_run _ _ _ Hc') as Hrun. rewrite Hmap in Hrun.
      destruct (JsMap.has k (_map c)) eqn:E.
      * by rewrite JsMapFacts.keys_set_present in Hrun.
      * rewrite JsMapFacts.set_absent in Hrun by done.
        unfold JsMap.keys in *. by rewrite fmap_app in Hrun.
    + intros Hpresent.
      rewrite (keyToIndex_run _ _ _ Hc'), (keyToIndex_run _ _ _ Hthis).
      simpl. rewrite Hmap. f_equal. by apply find_loop_set_present.
Qed.

Lemma addCustom_postcondition_witness :
  exists h',
    addCustom 0%nat (VStr "k") (VNum 7)
      ({[ 0%nat := mkCollection true None false None [] ]} : heap)
    = (Ok 0%nat, h') /\
    returns (key 0%nat (VStr "k")) h' (VNum 7).
Proof.
  destruct (addCustom_postcondition
              ({[ 0%nat := mkCollection true None false None [] ]} : heap)
              0%nat (mkCollection true None false None [])
              (VStr "k") (VNum 7))
    as (h' & Hrun & Hkey & _).
  - reflexivity.
  - discriminate.
  - exists h'. split; [exact Hrun | exact Hkey].
Defined.

(** ** Removal *)

(** C7.  When the collection contains key [k], a first [removeKey(k)]
    returns the stored value; a second one returns [undefined] and leaves
    the whole store, hence [size], as the first call left it. *)
Theorem removeKey_twice (h : heap) this c k v :
  h !! this = Some c ->
  wf c ->
  returns (hasKey this k) h true ->
  returns (key this k) h v ->
  exists h1 n,
    removeKey this k h = (Ok v, h1) /\
    returns (get_size this) h1 n /\
    removeKey this k h1 = (Ok VUndefined, h1) /\
    returns (get_size this) h1 n.
Proof.
  intros Hthis [Hnodup _] Hhas Hkey.
  pose proof (hasKey_run _ _ _ Hthis k) as Hhas'.
  pose proof (key_run _ _ _ Hthis k) as Hkey'.
  unfold returns in Hhas, Hkey, Hhas', Hkey'.
  assert (Hpresent : JsMap.has k (_map c) = true) by congruence.
  assert (Hv : JsMap.get k (_map c) = v) by congruence.
  pose proof (removeKey_run _ _ _ Hthis k) as Hrun.
  rewrite Hpresent, Hv in Hrun.
  set (c1 := record_event this "remove" v k _) in Hrun.
  assert (Hc1 : (<[this := c1]> h) !! this = Some c1) by apply lookup_insert_eq.
  exists (<[this := c1]> h), (JsMap.size (_map c1)).
  split; [done|]. split; [by apply get_size_run|]. split; [|by apply get_size_run].
  apply (removeKey_absent _ _ _ Hc1).
  unfold c1. rewrite record_event_map. simpl.
  by apply JsMapFacts.has_delete_NoDup.
Qed.

Lemma removeKey_twice_witness :
  exists h1 n,
    removeKey 0%nat (VNum 1)
      ({[ 0%nat := mkCollection true None false None [(VNum 1, VStr "a")] ]} : heap)
    = (Ok (VStr "a"), h1) /\
    returns (get_size 0%nat) h1 n /\
    removeKey 0%nat (VNum 1) h1 = (Ok VUndefined, h1) /\
    returns (get_size 0%nat) h1 n.
Proof.
  apply (removeKey_twice _ 0%nat
           (mkCollection true None false None [(VNum 1, VStr "a")])).
  - reflexivity.
  - apply (bool_decide_unpack _). vm_compute. exact I.
  - reflexivity.
  - reflexivity.
Defined.

(** ** The empty collection *)

Lemma get_size_inv (h : heap) this n :
  returns (get_size this) h n ->
  exists c, h !! this = Some c /\ JsMap.size (_map c) = n.
Proof.
  unfold returns, get_size, bind, deref, ret.
  destruct (h !! this) as [c|]; [|done].
  intros [= <-]. by exists c.
Qed.

Lemma size_zero_empty (m : JsMap.t) : JsMap.size m = 0 -> m = [].
Proof. unfold JsMap.size. destruct m; [done | simpl; lia]. Qed.

Section Empty.
Context (h : heap) (this : loc) (c : BulletproofCollection).
Hypothesis Hthis : h !! this = Some c.
Hypothesis Hempty : _map c = [].

Lemma randomKey_empty rnd : returns (randomKey this rnd) h VUndefined.
Proof.
  unfold returns, randomKey.
  rewrite (bind_ok _ _ _ _ _ (get_size_run _ _ _ Hthis)).
  by rewrite Hempty.
Qed.

Lemma random_empty rnd : returns (random this rnd) h VUndefined.
Proof.
  unfold returns, random.
  rewrite (bind_ok _ _ _ _ _ (randomKey_empty rnd)).
  pose proof (key_run _ _ _ Hthis VUndefined) as Hkey.
  by rewrite Hempty in Hkey.
Qed.

Lemma pullRandom_empty rnd : returns (pullRandom this rnd) h VUndefined.
Proof.
  unfold returns, pullRandom.
  rewrite (bind_ok _ _ _ _ _ (randomKey_empty rnd)).
  apply (removeKey_absent _ _ _ Hthis). by rewrite Hempty.
Qed.

Lemma pullRandomKey_empty rnd : returns (pullRandomKey this rnd) h VUndefined.
Proof.
  unfold returns, pullRandomKey.
  rewrite (bind_ok _ _ _ _ _ (randomKey_empty rnd)).
  assert (Hrm : removeKey this VUndefined h = (Ok VUndefined, h)).
  { apply (removeKey_absent _ _ _ Hthis). by rewrite Hempty. }
  by rewrite (bind_ok _ _ _ _ _ Hrm).
Qed.

Lemma get_lastIndex_empty : returns (get_lastIndex this) h VUndefined.
Proof.
  pose proof (get_lastIndex_run _ _ _ Hthis) as Hrun.
  by rewrite Hempty in Hrun.
Qed.

Lemma get_first_empty : returns (get_first this) h VUndefined.
Proof.
  unfold returns, get_first.
  rewrite (bind_ok _ _ _ _ _ (iterator_run _ _ _ Hthis)).
  by rewrite Hempty.
Qed.

Lemma get_last_empty : returns (get_last this) h VUndefined.
Proof.
  unfold returns, get_last.
  by rewrite (bind_ok _ _ _ _ _ get_lastIndex_empty).
Qed.

End Empty.

(** C8.  On a collection of size 0, [first], [last], [lastIndex],
    [random()], [randomKey()] and [pullRandom()] each return [undefined]
    without throwing, whatever [Math.random] would give, and leave the store
    as it was, so the collection is still empty. *)
Theorem empty_collection_accessors (h : heap) this (rnd : Q) :
  returns (get_size this) h 0 ->
  returns (get_first this) h VUndefined /\
  returns (get_last this) h VUndefined /\
  returns (get_lastIndex this) h VUndefined /\
  returns (random this rnd) h VUndefined /\
  returns (randomKey this rnd) h VUndefined /\
  returns (pullRandom this rnd) h VUndefined.
Proof.
  intros (c & Hthis & Hsize%size_zero_empty)%get_size_inv.
  repeat split.
  - by eapply get_first_empty.
  - by eapply get_last_empty.
  - by eapply get_lastIndex_empty.
  - by eapply random_empty.
  - by eapply randomKey_empty.
  - by eapply pullRandom_empty.
Qed.

Lemma empty_collection_accessors_witness :
  returns (get_first 0%nat)
    ({[ 0%nat := mkCollection true None false None [] ]} : heap) VUndefined /\
  returns (pullRandom 0%nat (1 # 2))
    ({[ 0%nat := mkCollection true None false None [] ]} : heap) VUndefined.
Proof.
  destruct (empty_collection_accessors
              ({[ 0%nat := mkCollection true None false None [] ]} : heap)
              0%nat (1 # 2))
    as (Hfirst & _ & _ & _ & _ & Hpull).
  - reflexivity.
  - split; [exact Hfirst | exact Hpull].
Defined.

(** ** Read-only properties *)

(** C9.  Assigning to [size], [lastIndex], [first], [last], [keys] or
    [keysAndValues] throws a [ReadOnlyError] whose message is the property
    name in quotes followed by [is a read-only property.], and the store is
    left as it was. *)
Theorem readonly_setters (h : heap) this (x : jsval) :
  set_size this x h
  = (Throw (ReadOnlyError "'size' is a read-only property."), h) /\
  set_lastIndex this x h
  = (Throw (ReadOnlyError "'lastIndex' is a read-only property."), h) /\
  set_first this x h
  = (Throw (ReadOnlyError "'first' is a read-only property."), h) /\
  set_last this x h
  = (Throw (ReadOnlyError "'last' is a read-only property."), h) /\
  set_keys this x h
  = (Throw (ReadOnlyError "'keys' is a read-only property."), h) /\
  set_keysAndValues this x h
  = (Throw (ReadOnlyError "'keysAndValues' is a read-only property."), h).
Proof. repeat split. Qed.

(** ** Construction *)

Lemma fresh_lookup (h : heap) : h !! fresh (dom h) = None.
Proof. apply not_elem_of_dom, is_fresh. Qed.

Lemma constructor_run EventCenter config (h : heap) :
  constructor EventCenter (Some config) h
  = if ToBoolean (enableEvents config) && negb EventCenter
    then (Throw (EventsSupportError "Events are not supported."),
          <[fresh (dom h) :=
              {| __bulletproof__ := true;
                 _keyExtractor := keyExtractor config;
                 _enableEvents := true;
                 _ec := None;
                 _map := [] |}]> h)
    else (Ok (fresh (dom h)), <[fresh (dom h) := new_collection config]> h).
Proof.
  unfold constructor, alloc, activateEvents, reset, new_collection.
  unfold bind, update, deref, ret, throw, new_EventsSupportError. simpl.
  rewrite lookup_insert_eq, insert_insert_eq. simpl.
  rewrite lookup_insert_eq. simpl.
  destruct (ToBoolean (enableEvents config)), EventCenter; simpl;
    rewrite ?lookup_insert_eq, ?insert_insert_eq; simpl;
    rewrite ?lookup_insert_eq, ?insert_insert_eq; done.
Qed.

Lemma constructor_ok_inv EventCenter config (h h' : heap) this :
  constructor EventCenter (Some config) h = (Ok this, h') ->
  this = fresh (dom h) /\ h !! this = None /\
  h' = <[this := new_collection config]> h.
Proof.
  rewrite constructor_run.
  destruct (ToBoolean (enableEvents config) && negb EventCenter); [done|].
  intros [= <- <-]. split; [done|]. split; [apply fresh_lookup | done].
Qed.

(** C10.  [new BulletproofCollection()] with no configuration object throws
    (a [TypeError], from reading a property of [undefined]) and changes no
    existing collection, whereas passing the declared defaults explicitly
    succeeds and gives an empty collection with no key extractor and events
    disabled: the defaults are not applied on the caller's behalf. *)
Theorem constructor_absent_config EventCenter (h : heap) :
  (exists h',
     constructor EventCenter None h = (Throw TypeError, h') /\
     forall l c, h !! l = Some c -> h' !! l = Some c) /\
  (exists this h' c,
     constructor EventCenter (Some defaultBulletproofConfig) h = (Ok this, h') /\
     h' !! this = Some c /\
     _keyExtractor c = None /\ _enableEvents c = false /\ _ec c = None /\
     _map c = []).
Proof.
  split.
  - eexists. split; [reflexivity|]. intros l c Hl.
    rewrite lookup_insert_ne; [done|]. intros <-.
    by rewrite fresh_lookup in Hl.
  - eexists _, _, _. rewrite constructor_run. simpl.
    split; [reflexivity|]. split; [apply lookup_insert_eq|]. done.
Qed.

(** ** Invariants of the store: every method is [safe] *)

Lemma evolves_refl c : evolves c c.
Proof. unfold evolves. auto. Qed.

Lemma evolves_trans c1 c2 c3 : evolves c1 c2 -> evolves c2 c3 -> evolves c1 c3.
Proof.
  intros (? & ? & ?) (? & ? & ?).
  split; [congruence|]. split; [congruence | auto].
Qed.

Lemma safe_unchanged {A} (m : M A) : (forall h, (m h).2 = h) -> safe m.
Proof.
  intros Hm h. rewrite Hm. split.
  - intros l c Hl. exists c. split; [done | apply evolves_refl].
  - intros l c' Hl Hl'. congruence.
Qed.

Lemma safe_ret {A} (a : A) : safe (ret a).
Proof. by apply safe_unchanged. Qed.

Lemma safe_throw {A} e : safe (@throw A e).
Proof. by apply safe_unchanged. Qed.

Lemma safe_deref this : safe (deref this).
Proof. apply safe_unchanged. intros h. unfold deref. by destruct (h !! this). Qed.

Lemma safe_bind {A B} (m : M A) (k : A -> M B) :
  safe m -> (forall a, safe (k a)) -> safe (bind m k).
Proof.
  intros Hm Hk h. destruct (Hm h) as [Hm1 Hm2]. unfold bind.
  destruct (m h) as [[a|e] h1] eqn:Hmh; simpl in *; [|by split].
  destruct (Hk a h1) as [Hk1 Hk2]. split.
  - intros l c Hl. destruct (Hm1 l c Hl) as (c1 & Hl1 & He1).
    destruct (Hk1 l c1 Hl1) as (c2 & Hl2 & He2).
    exists c2. split; [done | by eapply evolves_trans].
  - intros l c' Hl' Hl. destruct (h1 !! l) as [c1|] eqn:Hl1.
    + destruct (Hk1 l c1 Hl1) as (c2 & Hl2 & (_ & _ & Hwf)).
      assert (c2 = c') as -> by congruence. apply Hwf. by eapply Hm2.
    + by eapply Hk2.
Qed.

Lemma safe_update this f : (forall c, evolves c (f c)) -> safe (update this f).
Proof.
  intros Hf h. unfold update. destruct (h !! this) as [c0|] eqn:Hthis; simpl.
  - split.
    + intros l c Hl. destruct (decide (l = this)) as [->|Hne].
      * rewrite lookup_insert_eq. exists (f c0). split; [done|].
        assert (c = c0) as -> by congruence. apply Hf.
      * rewrite lookup_insert_ne by done. exists c. split; [done | apply evolves_refl].
    + intros l c' Hl' Hl. destruct (decide (l = this)) as [->|Hne]; [congruence|].
      rewrite lookup_insert_ne in Hl' by done. congruence.
  - split.
    + intros l c Hl. exists c. split; [done | apply evolves_refl].
    + intros l c' Hl' Hl. congruence.
Qed.

Lemma safe_modify {A} this (f : BulletproofCollection -> A * BulletproofCollection) :
  (forall c, evolves c (f c).2) -> safe (modify this f).
Proof.
  intros Hf h. unfold modify. destruct (h !! this) as [c0|] eqn:Hthis; simpl.
  - split.
    + intros l c Hl. destruct (decide (l = this)) as [->|Hne].
      * rewrite lookup_insert_eq. exists (f c0).2. split; [done|].
        assert (c = c0) as -> by congruence. apply Hf.
      * rewrite lookup_insert_ne by done. exists c. split; [done | apply evolves_refl].
    + intros l c' Hl' Hl. destruct (decide (l = this)) as [->|Hne]; [congruence|].
      rewrite lookup_insert_ne in Hl' by done. congruence.
  - split.
    + intros l c Hl. exists c. split; [done | apply evolves_refl].
    + intros l c' Hl' Hl. congruence.
Qed.

Lemma safe_heap_wf {A} (m : M A) h : safe m -> heap_wf h -> heap_wf (m h).2.
Proof.
  intros Hm Hh l c' Hl'. destruct (Hm h) as [H1 H2].
  destruct (h !! l) as [c|] eqn:Hl.
  - destruct (H1 l c Hl) as (c2 & Hl2 & (_ & _ & Hwf)).
    assert (c2 = c') as -> by congruence. apply Hwf. by eapply Hh.
  - by eapply H2.
Qed.

Lemma wf_empty_map c : wf (with_map c JsMap.empty).
Proof. split; simpl; [apply NoDup_nil_2 | by intros ?%elem_of_nil]. Qed.

Lemma evolves_with_ec c ec : evolves c (with_ec c ec).
Proof. unfold evolves. auto. Qed.

Lemma evolves_record_event this name v k c :
  evolves c (record_event this name v k c).
Proof. unfold record_event. destruct (_ec c); [apply evolves_with_ec | apply evolves_refl]. Qed.

Lemma evolves_reset c : evolves c (with_map c JsMap.empty).
Proof. split; [done|]. split; [done|]. intros _. apply wf_empty_map. Qed.

Lemma evolves_set c k v :
  k ≠ VUndefined -> evolves c (with_map c (JsMap.set k v (_map c))).
Proof.
  intros Hk. split; [done|]. split; [done|]. intros [Hnd Hun]. split; simpl.
  - by apply JsMapFacts.NoDup_set.
  - intros Hin%JsMapFacts.has_elem_of.
    rewrite JsMapFacts.has_set_ne in Hin by done.
    by apply Hun, JsMapFacts.has_elem_of.
Qed.

Lemma evolves_delete c k :
  evolves c (with_map c (JsMap.delete k (_map c)).2).
Proof.
  split; [done|]. split; [done|]. intros [Hnd Hun]. split; simpl.
  - by apply JsMapFacts.NoDup_delete.
  - intros Hin. by apply Hun, (JsMapFacts.keys_delete k).
Qed.

Create HintDb safe_db.
#[local] Hint Resolve evolves_refl evolves_with_ec evolves_record_event
  evolves_reset evolves_delete : safe_db.

Ltac safe_tac := repeat first
  [ match goal with H : forall _, _ |- safe _ => solve [apply H] end
  | apply safe_ret | apply safe_throw | apply safe_deref
  | match goal with |- safe (bind _ _) => apply safe_bind; [|intros ?] end
  | apply safe_update; intros ?; solve [eauto with safe_db]
  | match goal with
    | |- safe (match ?x with _ => _ end) => destruct x
    end ].

Section Safe.
Variable EventCenter : bool.

Lemma safe_emit this name v k : safe (emit this name v k).
Proof. unfold emit. safe_tac. Qed.

Lemma safe_reset this : safe (reset this).
Proof. unfold reset. safe_tac. Qed.

Lemma safe_activateEvents this : safe (activateEvents EventCenter this).
Proof. unfold activateEvents, new_EventsSupportError. safe_tac. Qed.

Lemma safe_addCustom this k v : safe (addCustom this k v).
Proof.
  unfold addCustom, new_InvalidArgumentsError, strict_eq.
  case_bool_decide as Hk; [safe_tac|].
  apply safe_bind; [|intros _].
  - apply safe_update. intros c. by apply evolves_set.
  - pose proof safe_emit. safe_tac.
Qed.

Lemma safe_add this v : safe (add this v).
Proof. unfold add. pose proof safe_addCustom. safe_tac. Qed.

Lemma safe_get_size this : safe (get_size this).
Proof. unfold get_size. safe_tac. Qed.

Lemma safe_get_lastIndex this : safe (get_lastIndex this).
Proof. unfold get_lastIndex. pose proof safe_get_size. safe_tac. Qed.

Lemma safe_indexToKey this i : safe (indexToKey this i).
Proof. unfold indexToKey, get_keys, _keys. safe_tac. Qed.

Lemma safe_key this k : safe (key this k).
Proof. unfold key. safe_tac. Qed.

Lemma safe_removeKey this k : safe (removeKey this k).
Proof.
  unfold removeKey. apply safe_bind; [apply safe_key | intros value].
  apply safe_bind; [|intros deleted].
  - apply safe_modify. intros c. pose proof (evolves_delete c k) as Hev.
    by destruct (JsMap.delete k (_map c)).
  - pose proof safe_emit. safe_tac.
Qed.

Lemma safe_removeIndex this i : safe (removeIndex this i).
Proof.
  unfold removeIndex.
  apply safe_bind; [apply safe_indexToKey | intros k; apply safe_removeKey].
Qed.

Lemma safe_randomKey this rnd : safe (randomKey this rnd).
Proof.
  unfold randomKey. pose proof safe_get_size. pose proof safe_get_lastIndex.
  pose proof safe_indexToKey. safe_tac.
Qed.

Lemma safe_pullRandomKey this rnd : safe (pullRandomKey this rnd).
Proof.
  unfold pullRandomKey. pose proof safe_randomKey. pose proof safe_removeKey.
  safe_tac.
Qed.

Lemma safe_pullRandom this rnd : safe (pullRandom this rnd).
Proof.
  unfold pullRandom. pose proof safe_randomKey. pose proof safe_removeKey.
  safe_tac.
Qed.

Lemma safe_constructor config : safe (constructor EventCenter config).
Proof.
  assert (Hnew : forall (h : heap) c0,
             wf c0 ->
             (forall l c, h !! l = Some c ->
                exists c', <[fresh (dom h) := c0]> h !! l = Some c' /\ evolves c c') /\
             (forall l c', <[fresh (dom h) := c0]> h !! l = Some c' ->
                h !! l = None -> wf c')).
  { intros h c0 Hc0. split.
    - intros l c Hl. exists c. split; [|apply evolves_refl].
      rewrite lookup_insert_ne; [done|]. intros <-.
      by rewrite fresh_lookup in Hl.
    - intros l c' Hl' Hl. destruct (decide (l = fresh (dom h))) as [->|Hne].
      + rewrite lookup_insert_eq in Hl'. congruence.
      + rewrite lookup_insert_ne in Hl' by done. congruence. }
  intros h. destruct config as [config|].
  - rewrite constructor_run.
    destruct (ToBoolean (enableEvents config) && negb EventCenter);
      simpl; apply Hnew; apply (wf_empty_map (new_collection config)).
  - apply Hnew. apply (wf_empty_map (new_collection defaultBulletproofConfig)).
Qed.

Lemma safe_Map_forEach {A} (m : JsMap.t) (cb : A -> jsval -> jsval -> M A) a :
  (forall a v k, safe (cb a v k)) -> safe (Map_forEach m cb a).
Proof.
  intros Hcb. revert a. induction m as [|[k v] m IH]; intros a; simpl.
  - apply safe_ret.
  - apply safe_bind; [apply Hcb | intros a'; apply IH].
Qed.

Lemma safe_forEach {A} this
    (fn : jsval -> A -> jsval -> jsval -> loc -> M A) thisArg a :
  (forall t a v k l, safe (fn t a v k l)) -> safe (forEach this fn thisArg a).
Proof.
  intros Hfn. unfold forEach.
  apply safe_bind; [apply safe_deref | intros c].
  apply safe_Map_forEach. intros. apply Hfn.
Qed.

Lemma safe_filter this fn thisArg : safe (filter EventCenter this fn thisArg).
Proof.
  unfold filter. apply safe_bind; [apply safe_deref | intros c].
  apply safe_bind; [apply safe_constructor | intros res].
  apply safe_bind; [|intros _; apply safe_ret].
  apply safe_forEach. intros t [] v k l.
  destruct (ToBoolean _); [|apply safe_ret].
  apply safe_bind; [apply safe_addCustom | intros _; apply safe_ret].
Qed.

End Safe.

(** ** Sequences of calls *)

Lemma perform_safe EventCenter cl (h : heap) :
  (forall l c, h !! l = Some c ->
     exists c', perform EventCenter cl h !! l = Some c' /\ evolves c c') /\
  (forall l c', perform EventCenter cl h !! l = Some c' -> h !! l = None -> wf c').
Proof.
  destruct cl; simpl.
  - apply safe_constructor.
  - apply safe_reset.
  - apply safe_activateEvents.
  - apply safe_add.
  - apply safe_addCustom.
  - apply safe_removeKey.
  - apply safe_removeIndex.
  - apply safe_pullRandomKey.
  - apply safe_pullRandom.
  - apply safe_filter.
Qed.

Lemma perform_all_evolves EventCenter cls (h : heap) l c :
  h !! l = Some c ->
  exists c', perform_all EventCenter cls h !! l = Some c' /\ evolves c c'.
Proof.
  revert h c. induction cls as [|cl cls IH]; intros h c Hl; simpl.
  - exists c. split; [done | apply evolves_refl].
  - destruct (perform_safe EventCenter cl h) as [H1 _].
    destruct (H1 l c Hl) as (c1 & Hl1 & He1).
    destruct (IH _ _ Hl1) as (c2 & Hl2 & He2).
    exists c2. split; [done | by eapply evolves_trans].
Qed.

Lemma perform_all_heap_wf EventCenter cls (h : heap) :
  heap_wf h -> heap_wf (perform_all EventCenter cls h).
Proof.
  revert h. induction cls as [|cl cls IH]; intros h Hh; simpl; [done|].
  apply IH. intros l c' Hl'. destruct (perform_safe EventCenter cl h) as [H1 H2].
  destruct (h !! l) as [c|] eqn:Hl.
  - destruct (H1 l c Hl) as (c2 & Hl2 & (_ & _ & Hwf)).
    assert (c2 = c') as -> by congruence. apply Hwf. by eapply Hh.
  - by eapply H2.
Qed.

(** ** Keys that are refused *)

(** C1, as the code has it.  For every value [v], [addCustom(undefined, v)]
    throws an [InvalidArgumentsError] and leaves the store as it was, and
    after any sequence of calls of the interface, starting from no
    collection at all, no collection holds the key [undefined].  The guard
    is [key === undefined]: the key [null] is not refused. *)
Theorem addCustom_undefined_key :
  (forall (h : heap) this v,
     addCustom this VUndefined v h
     = (Throw (InvalidArgumentsError "'undefined' keys are not allowed."), h)) /\
  (forall EventCenter cls l c,
     perform_all EventCenter cls (∅ : heap) !! l = Some c ->
     VUndefined ∉ JsMap.keys (_map c)).
Proof.
  split; [done|]. intros EventCenter cls l c Hl.
  assert (Hwf : heap_wf (perform_all EventCenter cls (∅ : heap))).
  { apply perform_all_heap_wf. intros l' c' Hl'. by rewrite lookup_empty in Hl'. }
  by destruct (Hwf l c Hl).
Qed.

Lemma addCustom_undefined_key_witness :
  VUndefined ∉
    JsMap.keys [(VNull, VStr "x")].
Proof.
  apply (proj2 addCustom_undefined_key true
           [CallNew (Some defaultBulletproofConfig);
            CallAddCustom 0%nat VNull (VStr "x")]
           0%nat
           (mkCollection true None false None [(VNull, VStr "x")])).
  reflexivity.
Defined.

(** C1 as stated fails for the absent key [null]: on a new collection,
    [addCustom(null, 'x')] returns, and the collection then has size 1 and
    holds the key [null]. *)
Lemma addCustom_null_key_counterexample :
  ((let* this := constructor true (Some defaultBulletproofConfig) in
    addCustom this VNull (VStr "x") ;;;
    let* n := get_size this in
    let* b := hasKey this VNull in
    ret (n, b)) (∅ : heap)).1
  = Ok (1, true).
Proof. reflexivity. Qed.

(** ** [add] without a key extractor *)

(** C5, as the code has it.  On a collection constructed without a
    [keyExtractor], at any later time and for every value, [add(value)]
    throws the [TypeError] of calling [undefined] and leaves the store as it
    was. *)
Theorem add_without_keyExtractor EventCenter config (h0 h1 : heap) this cls v :
  keyExtractor config = None ->
  constructor EventCenter (Some config) h0 = (Ok this, h1) ->
  add this v (perform_all EventCenter cls h1)
  = (Throw TypeError, perform_all EventCenter cls h1).
Proof.
  intros Hcfg (-> & _ & ->)%constructor_ok_inv.
  destruct (perform_all_evolves EventCenter cls
              (<[fresh (dom h0) := new_collection config]> h0)
              (fresh (dom h0)) (new_collection config))
    as (c' & Hc' & (Hke & _ & _)); [apply lookup_insert_eq|].
  unfold add. rewrite (bind_ok _ _ _ _ _ (deref_ok _ _ _ Hc')).
  rewrite Hke. simpl. by rewrite Hcfg.
Qed.

Lemma add_without_keyExtractor_witness :
  add 0%nat (VNum 1)
    (perform_all true [CallAddCustom 0%nat (VStr "a") (VNum 2)]
       (<[0%nat := new_collection defaultBulletproofConfig]> (∅ : heap)))
  = (Throw TypeError,
     perform_all true [CallAddCustom 0%nat (VStr "a") (VNum 2)]
       (<[0%nat := new_collection defaultBulletproofConfig]> (∅ : heap))).
Proof.
  apply (add_without_keyExtractor true defaultBulletproofConfig (∅ : heap)).
  - reflexivity.
  - reflexivity.
Defined.

(** C5 as stated fails: on a collection constructed with the default
    configuration, [add(1)] throws a [TypeError], not an
    [IncompatibleConfigurationError]. *)
Lemma add_without_keyExtractor_counterexample :
  ((let* this := constructor true (Some defaultBulletproofConfig) in
    add this (VNum 1)) (∅ : heap)).1 = Throw TypeError /\
  ~ exists message,
      ((let* this := constructor true (Some defaultBulletproofConfig) in
        add this (VNum 1)) (∅ : heap)).1
      = Throw (IncompatibleConfigurationError message).
Proof. split; [reflexivity|]. intros [message Hm]. discriminate Hm. Qed.

(** ** Traversals *)

Lemma Map_forEach_pure {A} (f : A -> jsval -> jsval -> A) (m : JsMap.t) a (h : heap) :
  Map_forEach m (fun a v k => ret (f a v k)) a h
  = (Ok (foldl (fun a kv => f a kv.2 kv.1) a m), h).
Proof.
  revert a. induction m as [|[k v] m IH]; intros a; simpl; [done|].
  unfold bind, ret at 1. simpl. apply IH.
Qed.

Lemma foldl_snoc_fmap {A B} (g : A -> B) (l : list A) (acc : list B) :
  foldl (fun acc x => acc ++ [g x]) acc l = acc ++ (g <$> l).
Proof.
  revert acc. induction l as [|x l IH]; intros acc; csimpl.
  - by rewrite app_nil_r.
  - rewrite IH. by rewrite <- app_assoc.
Qed.

Section Traversals.
Context (h : heap) (this : loc) (c : BulletproofCollection).
Hypothesis Hthis : h !! this = Some c.

Lemma forEach_pure {A} (f : jsval -> A -> jsval -> jsval -> loc -> A) thisArg a :
  returns (forEach this (fun t a v k l => ret (f t a v k l)) thisArg a) h
    (foldl (fun a kv => f thisArg a kv.2 kv.1 this) a (_map c)).
Proof.
  unfold returns, forEach. rewrite (bind_ok _ _ _ _ _ (deref_ok _ _ _ Hthis)).
  apply (Map_forEach_pure (fun a v k => f thisArg a v k this)).
Qed.

(** A callback that records what it is given sees the entries in the
    order of [_map]. *)
Lemma forEach_observes thisArg :
  returns (forEach this (fun _ seen v k _ => ret (seen ++ [(k, v)])) thisArg [])
    h (_map c).
Proof.
  pose proof (forEach_pure (fun _ seen v k _ => seen ++ [(k, v)]) thisArg [])
    as Hrun.
  rewrite (foldl_snoc_fmap (fun kv : jsval * jsval => (kv.1, kv.2))) in Hrun.
  simpl in Hrun. replace (_ <$> _map c) with (_map c) in Hrun; [done|].
  clear. induction (_map c) as [|[k v] m IH]; csimpl; [done|]. by f_equal.
Qed.

Lemma map_run fn thisArg :
  returns (map this fn thisArg) h
    ((fun kv => fn thisArg kv.2 kv.1 this) <$> _map c).
Proof.
  pose proof (forEach_pure
                (fun _ res v k bpc => res ++ [fn thisArg v k bpc]) VUndefined [])
    as Hrun.
  by rewrite (foldl_snoc_fmap (fun kv => fn thisArg kv.2 kv.1 this)) in Hrun.
Qed.

End Traversals.

(** ** [filter] *)

Lemma filter_loop fn thisArg this res (c0 : BulletproofCollection) (h : heap) :
  _ec c0 = None ->
  forall (todo m : JsMap.t),
    NoDup (JsMap.keys todo) ->
    (forall k, k ∈ JsMap.keys todo -> k ≠ VUndefined /\ k ∉ JsMap.keys m) ->
    Map_forEach todo
      (fun (_ : unit) value k =>
         if ToBoolean (fn thisArg value k this)
         then addCustom res k value ;;; ret tt
         else ret tt)
      tt (<[res := with_map c0 m]> h)
    = (Ok tt,
       <[res := with_map c0 (m ++ List.filter (keeps fn thisArg this) todo)]> h).
Proof.
  intros Hec. induction todo as [|[k v] todo IH]; intros m Hnd Hkeys.
  - simpl. by rewrite app_nil_r.
  - unfold JsMap.keys in Hnd, Hkeys. csimpl in Hnd. csimpl in Hkeys.
    apply NoDup_cons in Hnd as [Hk Hnd].
    destruct (Hkeys k) as [Hundef Hfresh]; [by left|].
    simpl. unfold keeps at 1. simpl.
    destruct (ToBoolean (fn thisArg v k this)).
    + assert (Hres : (<[res := with_map c0 m]> h) !! res = Some (with_map c0 m))
        by apply lookup_insert_eq.
      unfold bind at 1.
      rewrite (bind_ok _ _ _ _ _ (addCustom_run _ _ _ Hres k v Hundef)).
      unfold ret at 1. rewrite insert_insert_eq.
      rewrite record_event_no_emitter by done. simpl.
      rewrite JsMapFacts.set_absent
        by (by apply JsMapFacts.has_false_not_elem_of).
      rewrite with_map_with_map.
      rewrite (IH (m ++ [(k, v)])); [by rewrite <- app_assoc | done |].
      intros k' Hk'. destruct (Hkeys k') as [? ?]; [by right|].
      split; [done|]. unfold JsMap.keys. rewrite fmap_app, elem_of_app.
      intros [?|Heq%list_elem_of_singleton]; [done|]. simpl in Heq. subst k'.
      by apply Hk.
    + unfold bind at 1, ret at 1. apply IH; [done|].
      intros k' Hk'. apply Hkeys. by right.
Qed.

Lemma filter_run EventCenter fn thisArg this c (h : heap) :
  h !! this = Some c ->
  wf c ->
  filter EventCenter this fn thisArg h
  = (Ok (fresh (dom h)),
     <[fresh (dom h) :=
         with_map (new_collection (filter_config c))
           (List.filter (keeps fn thisArg this) (_map c))]> h).
Proof.
  intros Hthis [Hnd Hundef]. unfold filter.
  rewrite (bind_ok _ _ _ _ _ (deref_ok _ _ _ Hthis)).
  pose proof (constructor_run EventCenter (filter_config c) h) as Hnew.
  simpl in Hnew. fold (filter_config c).
  rewrite (bind_ok _ _ _ _ _ Hnew).
  set (res := fresh (dom h)).
  assert (Hne : res ≠ this).
  { intros Heq. pose proof (fresh_lookup h) as Hfresh. fold res in Hfresh.
    rewrite Heq in Hfresh. congruence. }
  assert (Hthis' : (<[res := new_collection (filter_config c)]> h) !! this = Some c)
    by (by rewrite lookup_insert_ne).
  unfold forEach. unfold bind at 1.
  rewrite (bind_ok _ _ _ _ _ (deref_ok _ _ _ Hthis')).
  pose proof (filter_loop fn thisArg this res (new_collection (filter_config c)) h
                eq_refl (_map c) [] Hnd) as Hloop.
  simpl in Hloop.
  change (with_map (new_collection (filter_config c)) [])
    with (new_collection (filter_config c)) in Hloop.
  rewrite Hloop; [done|].
  intros k Hk. split; [by intros -> | by intros ?%elem_of_nil].
Qed.

(** C6.  On a collection [c] (a well-formed one: distinct keys, none
    [undefined]) and for every predicate [fn], [filter(fn)] returns a
    collection that did not exist before, whose entries are exactly the
    entries of [c] on which [fn] is truthy, in the order [c] has them; it
    has the key extractor of [c], its events flag is off and it has no
    emitter, whatever [c] has; and [c], like every other collection of the
    store, is left as it was. *)
Theorem filter_postcondition EventCenter (h : heap) this c fn thisArg :
  h !! this = Some c ->
  wf c ->
  exists res h' c',
    filter EventCenter this fn thisArg h = (Ok res, h') /\
    h !! res = None /\
    h' !! res = Some c' /\
    returns (get_keysAndValues res) h'
      (List.filter (fun kv => ToBoolean (fn thisArg kv.2 kv.1 this)) (_map c)) /\
    _keyExtractor c' = _keyExtractor c /\
    _enableEvents c' = false /\
    _ec c' = None /\
    h' !! this = Some c /\
    (forall l, l ≠ res -> h' !! l = h !! l).
Proof.
  intros Hthis Hwf. eexists _, _, _.
  split; [by apply filter_run|].
  split; [apply fresh_lookup|].
  split; [apply lookup_insert_eq|].
  split; [|split; [done|]; split; [done|]; split; [done|]; split].
  - exact (get_keysAndValues_run _ _ _
             (lookup_insert_eq h (fresh (dom h))
                (with_map (new_collection (filter_config c))
                   (List.filter (keeps fn thisArg this) (_map c))))).
  - rewrite lookup_insert_ne; [done|]. intros Heq.
    pose proof (fresh_lookup h) as Hfresh. rewrite Heq in Hfresh. congruence.
  - intros l Hl. by rewrite lookup_insert_ne.
Qed.

Lemma filter_postcondition_witness :
  exists res h' c',
    filter true 0%nat (fun _ v _ _ => VBool (bool_decide (v = VNum 3))) VUndefined
      ({[ 0%nat := mkCollection true None true (Some (mkEmitter []))
                     [(VStr "a", VNum 2); (VStr "b", VNum 3)] ]} : heap)
    = (Ok res, h') /\
    h' !! res = Some c' /\
    _map c' = [(VStr "b", VNum 3)] /\
    _ec c' = None.
Proof.
  destruct (filter_postcondition true
              ({[ 0%nat := mkCollection true None true (Some (mkEmitter []))
                             [(VStr "a", VNum 2); (VStr "b", VNum 3)] ]} : heap)
              0%nat
              (mkCollection true None true (Some (mkEmitter []))
                 [(VStr "a", VNum 2); (VStr "b", VNum 3)])
              (fun _ v _ _ => VBool (bool_decide (v = VNum 3))) VUndefined)
    as (res & h' & c' & Hrun & _ & Hres & Hkv & _ & _ & Hec & _).
  - reflexivity.
  - apply (bool_decide_unpack _). vm_compute. exact I.
  - exists res, h', c'. split; [exact Hrun|]. split; [exact Hres|].
    split; [|exact Hec].
    unfold returns, get_keysAndValues, _keysAndValues, bind, deref, ret in Hkv.
    rewrite Hres in Hkv. by injection Hkv.
Defined.

(** ** Insertion order *)

Lemma addCustom_three (h : heap) this c0 a b c va vb vc :
  h !! this = Some c0 ->
  _map c0 = [] ->
  a ≠ VUndefined -> b ≠ VUndefined -> c ≠ VUndefined ->
  a ≠ b -> a ≠ c -> b ≠ c ->
  exists h3 c3,
    (addCustom this a va ;;; addCustom this b vb ;;; addCustom this c vc) h
    = (Ok this, h3) /\
    h3 !! this = Some c3 /\
    _map c3 = [(a, va); (b, vb); (c, vc)] /\
    wf c3.
Proof.
  intros Hthis Hempty Ha Hb Hc Hab Hac Hbc.
  rewrite (bind_ok _ _ _ _ _ (addCustom_run _ _ _ Hthis a va Ha)).
  set (c1 := record_event this "add" va a _).
  rewrite (bind_ok _ _ _ _ _
             (addCustom_run _ _ _ (lookup_insert_eq h this c1) b vb Hb)).
  rewrite insert_insert_eq.
  set (c2 := record_event this "add" vb b _).
  rewrite (addCustom_run _ _ _ (lookup_insert_eq h this c2) c vc Hc).
  rewrite insert_insert_eq.
  set (c3 := record_event this "add" vc c _).
  assert (Hmap : _map c3 = [(a, va); (b, vb); (c, vc)]).
  { unfold c3. rewrite record_event_map. simpl.
    unfold c2. rewrite record_event_map. simpl.
    unfold c1. rewrite record_event_map. simpl. rewrite Hempty. simpl.
    rewrite (decide_False _ _ Hab). simpl.
    by rewrite (decide_False _ _ Hac), (decide_False _ _ Hbc). }
  exists (<[this := c3]> h), c3.
  split; [done|]. split; [apply lookup_insert_eq|]. split; [done|].
  unfold wf, JsMap.keys. rewrite Hmap. csimpl. split.
  - repeat (apply NoDup_cons; split);
      rewrite ?elem_of_cons, ?elem_of_nil;
      [intuition congruence..|apply NoDup_nil_2].
  - rewrite !elem_of_cons, elem_of_nil. intuition congruence.
Qed.

(** C3.  After keys [a], [b], [c] (pairwise distinct, none [undefined],
    with any values) are inserted in that order into a newly constructed
    collection, the [keys] sequence is [a, b, c]; default iteration gives
    the three values, [forEach] hands its callback the three entries, and
    [map] gives the three results of [fn], all in that order; and the
    collection [filter] returns has the entries on which [fn] is truthy,
    again in that order. *)
Theorem insertion_order EventCenter config (h0 h1 : heap) this
    a b c va vb vc fn thisArg :
  constructor EventCenter (Some config) h0 = (Ok this, h1) ->
  a ≠ VUndefined -> b ≠ VUndefined -> c ≠ VUndefined ->
  a ≠ b -> a ≠ c -> b ≠ c ->
  exists h3,
    (addCustom this a va ;;; addCustom this b vb ;;; addCustom this c vc) h1
    = (Ok this, h3) /\
    returns (get_keys this) h3 [a; b; c] /\
    returns (iterator this) h3 [va; vb; vc] /\
    returns (forEach this (fun _ seen v k _ => ret (seen ++ [(k, v)])) thisArg [])
      h3 [(a, va); (b, vb); (c, vc)] /\
    returns (map this fn thisArg) h3
      [fn thisArg va a this; fn thisArg vb b this; fn thisArg vc c this] /\
    exists res h4,
      filter EventCenter this fn thisArg h3 = (Ok res, h4) /\
      returns (get_keysAndValues res) h4
        (List.filter (fun kv => ToBoolean (fn thisArg kv.2 kv.1 this))
           [(a, va); (b, vb); (c, vc)]) /\
      returns (get_keys this) h4 [a; b; c].
Proof.
  intros (-> & _ & ->)%constructor_ok_inv Ha Hb Hc Hab Hac Hbc.
  destruct (addCustom_three
              (<[fresh (dom h0) := new_collection config]> h0)
              (fresh (dom h0)) (new_collection config) a b c va vb vc)
    as (h3 & c3 & Hrun & Hthis & Hmap & Hwf);
    [apply lookup_insert_eq | done..|].
  exists h3. split; [done|].
  split; [|split; [|split; [|split]]].
  - pose proof (get_keys_run _ _ _ Hthis) as H. by rewrite Hmap in H.
  - pose proof (iterator_run _ _ _ Hthis) as H. by rewrite Hmap in H.
  - pose proof (forEach_observes _ _ _ Hthis thisArg) as H. by rewrite Hmap in H.
  - pose proof (map_run _ _ _ Hthis fn thisArg) as H. by rewrite Hmap in H.
  - eexists _, _. split; [by apply filter_run|].
    assert (Hne : fresh (dom h3) ≠ fresh (dom h0)).
    { intros Heq. pose proof (fresh_lookup h3) as Hfresh.
      rewrite Heq in Hfresh. congruence. }
    split.
    + pose proof (get_keysAndValues_run _ _ _
                    (lookup_insert_eq h3 (fresh (dom h3))
                       (with_map (new_collection (filter_config c3))
                          (List.filter (keeps fn thisArg (fresh (dom h0)))
                             (_map c3))))) as H.
      rewrite <- Hmap. exact H.
    + assert (Hthis4 : (<[fresh (dom h3) :=
                            with_map (new_collection (filter_config c3))
                              (List.filter (keeps fn thisArg (fresh (dom h0)))
                                 (_map c3))]> h3) !! fresh (dom h0) = Some c3)
        by (by rewrite lookup_insert_ne).
      pose proof (get_keys_run _ _ _ Hthis4) as H.
      replace (JsMap.keys (_map c3)) with [a; b; c] in H by (by rewrite Hmap).
      exact H.
Qed.

Lemma insertion_order_witness :
  exists h3,
    (addCustom 0%nat (VNum 3) (VStr "x") ;;;
     addCustom 0%nat (VStr "b") VNull ;;;
     addCustom 0%nat VNull (VNum 0))
      (<[0%nat := new_collection defaultBulletproofConfig]> (∅ : heap))
    = (Ok 0%nat, h3) /\
    returns (get_keys 0%nat) h3 [VNum 3; VStr "b"; VNull] /\
    returns (iterator 0%nat) h3 [VStr "x"; VNull; VNum 0].
Proof.
  destruct (insertion_order true defaultBulletproofConfig (∅ : heap)
              (<[0%nat := new_collection defaultBulletproofConfig]> (∅ : heap))
              0%nat (VNum 3) (VStr "b") VNull (VStr "x") VNull (VNum 0)
              (fun _ v _ _ => v) VUndefined)
    as (h3 & Hrun & Hkeys & Hvalues & _); try discriminate.
  - reflexivity.
  - exists h3. split; [exact Hrun|]. split; [exact Hkeys | exact Hvalues].
Defined.

(** ** [toObject] and the round trip through an object *)

Lemma toObject_run (h : heap) this c :
  h !! this = Some c ->
  returns (toObject this) h
    (foldl (fun o kv => obj_set o kv.1 kv.2) empty_object (_map c)).
Proof.
  intros Hthis.
  apply (forEach_pure _ _ _ Hthis (fun _ res value k _ => obj_set res k value)).
Qed.

Lemma is_plain_string_key_inv k :
  is_plain_string_key k = true ->
  VStr (ToPropertyKey k) = k /\ ToPropertyKey k ≠ "__proto__".
Proof.
  destruct k as [| | | |s|]; simpl; try done.
  intros Hs. split; [done|]. intros ->. done.
Qed.

Lemma obj_set_all_plain (m : JsMap.t) (P : gmap string jsval) :
  forallb is_plain_string_key (JsMap.keys m) = true ->
  foldl (fun o kv => obj_set o kv.1 kv.2) (mkObject P None) m
  = mkObject (foldl (fun P pv => <[pv.1 := pv.2]> P) P (property_of <$> m)) None.
Proof.
  revert P. induction m as [|[k v] m IH]; intros P; csimpl; [done|].
  intros [Hk Hm]%andb_prop.
  destruct (is_plain_string_key_inv k Hk) as [_ Hproto].
  unfold obj_set at 2. simpl. rewrite decide_False by done. simpl.
  by apply IH.
Qed.

Lemma map_to_list_insert_all (l : list (string * jsval)) (P : gmap string jsval) :
  NoDup l.*1 ->
  (forall p, p ∈ l.*1 -> P !! p = None) ->
  map_to_list (foldl (fun P pv => <[pv.1 := pv.2]> P) P l) ≡ₚ l ++ map_to_list P.
Proof.
  revert P. induction l as [|[p v] l IH]; intros P Hnd HP; csimpl; [done|].
  csimpl in Hnd. apply NoDup_cons in Hnd as [Hp Hnd].
  rewrite IH; [|done|].
  - rewrite map_to_list_insert by (apply HP; by left).
    by rewrite <- Permutation_middle.
  - intros q Hq. rewrite lookup_insert_ne; [apply HP; by right|].
    intros <-. done.
Qed.

Lemma plain_keys_properties (m : JsMap.t) :
  forallb is_plain_string_key (JsMap.keys m) = true ->
  entry_of <$> (property_of <$> m) = m.
Proof.
  induction m as [|[k v] m IH]; csimpl; [done|].
  intros [Hk Hm]%andb_prop. rewrite IH by done.
  destruct (is_plain_string_key_inv k Hk) as [Heq _].
  unfold entry_of, property_of. simpl. by rewrite Heq.
Qed.

Lemma keys_entry_of (pairs : list (string * jsval)) :
  JsMap.keys (entry_of <$> pairs) = VStr <$> pairs.*1.
Proof.
  unfold JsMap.keys. induction pairs as [|[p v] pairs IH]; csimpl; [done|].
  by rewrite IH.
Qed.

Global Instance VStr_inj : Inj (=) (=) VStr.
Proof. by intros s1 s2 [=]. Qed.

Lemma reinsert_run (h : heap) copy (pairs : list (string * jsval)) :
  NoDup pairs.*1 ->
  forall c0,
    (forall p, p ∈ pairs.*1 -> VStr p ∉ JsMap.keys (_map c0)) ->
    exists c',
      reinsert copy pairs (<[copy := c0]> h) = (Ok tt, <[copy := c']> h) /\
      _map c' = _map c0 ++ (entry_of <$> pairs).
Proof.
  induction pairs as [|[p v] pairs IH]; intros Hnd c0 Hfresh; csimpl.
  - exists c0. split; [done|]. by rewrite app_nil_r.
  - csimpl in Hnd. apply NoDup_cons in Hnd as [Hp Hnd].
    assert (Hcopy : (<[copy := c0]> h) !! copy = Some c0) by apply lookup_insert_eq.
    assert (Hdef : VStr p ≠ VUndefined) by done.
    rewrite (bind_ok _ _ _ _ _ (addCustom_run _ _ _ Hcopy (VStr p) v Hdef)).
    rewrite insert_insert_eq.
    set (c1 := record_event copy "add" v (VStr p) _).
    assert (Hmap1 : _map c1 = _map c0 ++ [(VStr p, v)]).
    { unfold c1. rewrite record_event_map. simpl.
      apply JsMapFacts.set_absent, JsMapFacts.has_false_not_elem_of.
      apply Hfresh. csimpl. by left. }
    destruct (IH Hnd c1) as (c' & Hrun & Hmap').
    + intros q Hq. rewrite Hmap1. unfold JsMap.keys.
      rewrite fmap_app, elem_of_app. intros [Hin|Hin%list_elem_of_singleton].
      * apply (Hfresh q); [csimpl; by right | done].
      * simpl in Hin. injection Hin as ->. done.
    + exists c'. split; [done|]. rewrite Hmap', Hmap1.
      by rewrite <- app_assoc.
Qed.

(** C4, as the code has it.  When every key of a collection is a string
    other than [__proto__], [toObject()] followed by the insertion of the
    object's pairs, listed in any order, into a newly constructed collection
    gives a collection of the same size that has exactly the same keys:
    [hasKey] agrees on every key.  The original is left as it was. *)
Theorem toObject_round_trip EventCenter config (h h1 : heap) this c o pairs copy :
  h !! this = Some c ->
  wf c ->
  forallb is_plain_string_key (JsMap.keys (_map c)) = true ->
  returns (toObject this) h o ->
  enumerates pairs o ->
  constructor EventCenter (Some config) h = (Ok copy, h1) ->
  exists (h2 : heap) (n : Z),
    reinsert copy pairs h1 = (Ok tt, h2) /\
    h2 !! this = Some c /\
    returns (get_size this) h2 n /\
    returns (get_size copy) h2 n /\
    forall k, exists b : bool,
      returns (hasKey this k) h2 b /\ returns (hasKey copy k) h2 b.
Proof.
  intros Hthis [Hnd _] Hplain Hobj Hpairs (-> & Hfresh & ->)%constructor_ok_inv.
  set (copy := fresh (dom h)) in *.
  pose proof (toObject_run _ _ _ Hthis) as Hobj'.
  unfold returns in Hobj, Hobj'. rewrite Hobj' in Hobj.
  injection Hobj as <-. clear Hobj'.
  unfold enumerates, empty_object in Hpairs.
  rewrite obj_set_all_plain in Hpairs by done. simpl in Hpairs.
  assert (Hentries : entry_of <$> (property_of <$> _map c) = _map c)
    by (by apply plain_keys_properties).
  assert (Hkeys : VStr <$> (property_of <$> _map c).*1 = JsMap.keys (_map c))
    by (by rewrite <- keys_entry_of, Hentries).
  assert (Hnd' : NoDup (property_of <$> _map c).*1).
  { apply (NoDup_fmap VStr). by rewrite Hkeys. }
  rewrite map_to_list_insert_all in Hpairs;
    [|done|intros; apply lookup_empty].
  rewrite map_to_list_empty, app_nil_r in Hpairs.
  destruct (reinsert_run h copy pairs) with (c0 := new_collection config)
    as (c' & Hrun & Hmap).
  { by rewrite Hpairs. }
  { intros p _. simpl. by intros ?%elem_of_nil. }
  simpl in Hmap.
  assert (Hne : this ≠ copy) by (intros ->; congruence).
  assert (Hthis2 : (<[copy := c']> h) !! this = Some c)
    by (by rewrite lookup_insert_ne).
  assert (Hcopy2 : (<[copy := c']> h) !! copy = Some c')
    by apply lookup_insert_eq.
  assert (Hperm : JsMap.keys (_map c') ≡ₚ JsMap.keys (_map c)).
  { rewrite Hmap, keys_entry_of, <- Hkeys. by rewrite Hpairs. }
  exists (<[copy := c']> h), (JsMap.size (_map c)).
  split; [done|]. split; [done|].
  split; [by apply get_size_run|]. split.
  - pose proof (get_size_run _ _ _ Hcopy2) as Hsize.
    replace (JsMap.size (_map c')) with (JsMap.size (_map c)) in Hsize; [done|].
    unfold JsMap.size. f_equal. rewrite <- !(length_fmap fst).
    symmetry. apply Permutation_length, Hperm.
  - intros k. exists (JsMap.has k (_map c)). split; [by apply hasKey_run|].
    pose proof (hasKey_run _ _ _ Hcopy2 k) as Hhas.
    replace (JsMap.has k (_map c')) with (JsMap.has k (_map c)) in Hhas; [done|].
    destruct (JsMap.has k (_map c)) eqn:E.
    + symmetry. apply JsMapFacts.has_elem_of. rewrite Hperm.
      by apply JsMapFacts.has_elem_of.
    + symmetry. apply JsMapFacts.has_false_not_elem_of. rewrite Hperm.
      by apply JsMapFacts.has_false_not_elem_of.
Qed.

Lemma toObject_round_trip_witness :
  exists (h2 : heap) (n : Z),
    reinsert 1%nat [("b", VNum 2); ("a", VNum 1)]
      (<[1%nat := new_collection defaultBulletproofConfig]>
         ({[ 0%nat := mkCollection true None false None
                        [(VStr "a", VNum 1); (VStr "b", VNum 2)] ]} : heap))
    = (Ok tt, h2) /\
    returns (get_size 0%nat) h2 n /\
    returns (get_size 1%nat) h2 n.
Proof.
  destruct (toObject_round_trip true defaultBulletproofConfig
              ({[ 0%nat := mkCollection true None false None
                             [(VStr "a", VNum 1); (VStr "b", VNum 2)] ]} : heap)
              (<[1%nat := new_collection defaultBulletproofConfig]>
                 ({[ 0%nat := mkCollection true None false None
                                [(VStr "a", VNum 1); (VStr "b", VNum 2)] ]} : heap))
              0%nat
              (mkCollection true None false None
                 [(VStr "a", VNum 1); (VStr "b", VNum 2)])
              (mkObject (<["b" := VNum 2]> (<["a" := VNum 1]> ∅)) None)
              [("b", VNum 2); ("a", VNum 1)]
              1%nat)
    as (h2 & n & Hrun & _ & Hsize & Hsize' & _).
  - reflexivity.
  - apply (bool_decide_unpack _). vm_compute. exact I.
  - reflexivity.
  - reflexivity.
  - unfold enumerates. simpl.
    rewrite map_to_list_insert by (by vm_compute).
    rewrite map_to_list_insert by (by vm_compute).
    by rewrite map_to_list_empty.
  - reflexivity.
  - exists h2, n. split; [exact Hrun|]. split; [exact Hsize | exact Hsize'].
Defined.

(** C4 as stated fails when a key is not a string.  With the single key
    [1] (a number), the object has the property ["1"] and the copy has the
    key ["1"] (a string): the original has the key [1], the copy does not.
    With the two keys [1] and ["1"], both land on the property ["1"]: the
    original has size 2 and the copy size 1. *)
Lemma toObject_round_trip_counterexample :
  ((let* this := constructor true (Some defaultBulletproofConfig) in
    addCustom this (VNum 1) (VStr "x") ;;;
    let* o := toObject this in
    let* copy := constructor true (Some defaultBulletproofConfig) in
    reinsert copy (map_to_list (props o)) ;;;
    let* b := hasKey this (VNum 1) in
    let* b' := hasKey copy (VNum 1) in
    ret (b, b')) (∅ : heap)).1
  = Ok (true, false) /\
  ((let* this := constructor true (Some defaultBulletproofConfig) in
    addCustom this (VNum 1) (VStr "x") ;;;
    addCustom this (VStr "1") (VStr "y") ;;;
    let* o := toObject this in
    let* copy := constructor true (Some defaultBulletproofConfig) in
    reinsert copy (map_to_list (props o)) ;;;
    let* n := get_size this in
    let* n' := get_size copy in
    ret (n, n')) (∅ : heap)).1
  = Ok (2, 1).
Proof. split; vm_compute; reflexivity. Qed.

(** * Further properties of the class *)

(** ** The counting loops are positional lookups *)

Lemma nth_loop_lookup (xs : list jsval) (c n : Z) :
  nth_loop xs c (VNum n)
  = if decide (c <= n) then default VUndefined (xs !! Z.to_nat (n - c))
    else VUndefined.
Proof.
  revert c. induction xs as [|x xs IH]; intros c; simpl.
  - by case_decide.
  - unfold strict_eq. case_bool_decide as Heq.
    + injection Heq as ->. rewrite decide_True by lia.
      by replace (n - n) with 0 by lia.
    + assert (c ≠ n) by congruence. rewrite IH.
      repeat case_decide; try lia; [|done].
      replace (Z.to_nat (n - c)) with (S (Z.to_nat (n - (c + 1)))) by lia.
      done.
Qed.

Lemma nth_loop_not_number (xs : list jsval) (c : Z) (i : jsval) :
  (forall n, i ≠ VNum n) -> nth_loop xs c i = VUndefined.
Proof.
  intros Hi. revert c. induction xs as [|x xs IH]; intros c; simpl; [done|].
  unfold strict_eq. rewrite bool_decide_eq_false_2; [apply IH|].
  intros Heq. by apply (Hi c).
Qed.


(** The first position holding [x], counted from [c]. *)
Lemma find_loop_present (xs : list jsval) (c : Z) (x : jsval) :
  x ∈ xs ->
  exists j : nat,
    find_loop xs c x = VNum (c + Z.of_nat j) /\
    xs !! j = Some x /\
    forall j' : nat, (j' < j)%nat -> xs !! j' ≠ Some x.
Proof.
  revert c. induction xs as [|x' xs IH]; intros c Hx; simpl.
  - by apply elem_of_nil in Hx.
  - unfold strict_eq. case_bool_decide as Heq.
    + subst x'. exists 0%nat. split; [f_equal; lia|]. split; [done|]. lia.
    + apply elem_of_cons in Hx as [->|Hx]; [done|].
      destruct (IH (c + 1) Hx) as (j & Hfind & Hj & Hmin).
      exists (S j). split; [rewrite Hfind; f_equal; lia|]. split; [done|].
      intros [|j'] Hlt; simpl; [congruence | apply Hmin; lia].
Qed.



(** ** Lookups in a [Map] without duplicate keys *)

Lemma JsMap_get_lookup (m : list (jsval * jsval)) (j : nat) k v :
  NoDup (JsMap.keys m) -> m !! j = Some (k, v) -> JsMap.get k m = v.
Proof.
  unfold JsMap.keys. revert j. induction m as [|[k' v'] m IH]; intros j; csimpl.
  - done.
  - intros [Hk' Hnd]%NoDup_cons. destruct j as [|j]; simpl.
    + intros [= -> ->]. by rewrite decide_True.
    + intros Hj. rewrite decide_False; [by eapply IH|].
      intros ->. apply Hk'. apply list_elem_of_fmap. exists (k, v).
      split; [done|]. by eapply list_elem_of_lookup_2.
Qed.

Lemma JsMap_has_lookup (m : list (jsval * jsval)) (j : nat) k v :
  m !! j = Some (k, v) -> JsMap.has k m = true.
Proof.
  intros Hj. apply JsMapFacts.has_elem_of. unfold JsMap.keys.
  apply list_elem_of_fmap. exists (k, v). split; [done|].
  by eapply list_elem_of_lookup_2.
Qed.

(** ** Positions and keys *)

Lemma hasIndex_run (h : heap) this c (i : Z) :
  h !! this = Some c ->
  returns (hasIndex this i) h ((0 <=? i) && (i <? JsMap.size (_map c))).
Proof.
  intros Hthis. unfold returns, hasIndex.
  by rewrite (bind_ok _ _ _ _ _ (get_size_run _ _ _ Hthis)).
Qed.


Lemma hasIndex_false_lookup (h : heap) this c (i : Z) :
  h !! this = Some c ->
  returns (hasIndex this i) h false ->
  i < 0 \/ (_map c : list (jsval * jsval)) !! Z.to_nat i = None.
Proof.
  intros Hthis Hrun. pose proof (hasIndex_run _ _ _ i Hthis) as Hrun'.
  unfold returns in Hrun, Hrun'. rewrite Hrun' in Hrun.
  injection Hrun as Hb. apply andb_false_iff in Hb as [H0|H1].
  - left. apply Z.leb_gt in H0. lia.
  - apply Z.ltb_ge in H1. unfold JsMap.size in H1.
    destruct (decide (i < 0)); [by left|]. right.
    apply lookup_ge_None. lia.
Qed.

(** What the methods return for the entry at position [j]. *)
Lemma entry_at (h : heap) this c (j : nat) k v :
  h !! this = Some c ->
  NoDup (JsMap.keys (_map c)) ->
  (_map c : list (jsval * jsval)) !! j = Some (k, v) ->
  returns (hasIndex this (Z.of_nat j)) h true /\
  returns (indexToKey this (VNum (Z.of_nat j))) h k /\
  returns (hasKey this k) h true /\
  returns (keyToIndex this k) h (VNum (Z.of_nat j)) /\
  returns (index this (VNum (Z.of_nat j))) h v /\
  returns (key this k) h v.
Proof.
  intros Hthis Hnd Hkv.
  assert (Hk : JsMap.keys (_map c) !! j = Some k)
    by (unfold JsMap.keys; by rewrite list_lookup_fmap, Hkv).
  assert (Hv : JsMap.values (_map c) !! j = Some v)
    by (unfold JsMap.values; by rewrite list_lookup_fmap, Hkv).
  pose proof (lookup_lt_Some _ _ _ Hkv) as Hlt.
  split; [|split; [|split; [|split; [|split]]]].
  - pose proof (hasIndex_run _ _ _ (Z.of_nat j) Hthis) as Hrun.
    replace ((0 <=? _) && _) with true in Hrun; [done|].
    symmetry. apply andb_true_intro. unfold JsMap.size.
    split; [apply Z.leb_le | apply Z.ltb_lt]; lia.
  - pose proof (indexToKey_run _ _ _ Hthis (VNum (Z.of_nat j))) as Hrun.
    rewrite nth_loop_lookup, decide_True in Hrun by lia.
    replace (Z.to_nat (Z.of_nat j - 0)) with j in Hrun by lia.
    by rewrite Hk in Hrun.
  - pose proof (hasKey_run _ _ _ Hthis k) as Hrun.
    by rewrite (JsMap_has_lookup _ _ _ _ Hkv) in Hrun.
  - pose proof (keyToIndex_run _ _ _ Hthis k) as Hrun.
    destruct (find_loop_present (JsMap.keys (_map c)) 0 k)
      as (j' & Hfind & Hj' & _); [by eapply list_elem_of_lookup_2|].
    rewrite Hfind in Hrun.
    assert (j' = j) as -> by (by eapply NoDup_lookup).
    by replace (0 + Z.of_nat j) with (Z.of_nat j) in Hrun by lia.
  - pose proof (index_run _ _ _ Hthis (VNum (Z.of_nat j))) as Hrun.
    rewrite nth_loop_lookup, decide_True in Hrun by lia.
    replace (Z.to_nat (Z.of_nat j - 0)) with j in Hrun by lia.
    by rewrite Hv in Hrun.
  - pose proof (key_run _ _ _ Hthis k) as Hrun.
    by rewrite (JsMap_get_lookup _ _ _ _ Hnd Hkv) in Hrun.
Qed.



(** X2.  For an index that is not valid ([hasIndex(i)] is false: negative
    or at least [size]), [index(i)] and [indexToKey(i)] return [undefined];
    on a well-formed collection [removeIndex(i)] then returns [undefined]
    and leaves the store as it was. *)
Theorem invalid_index (h : heap) this c (i : Z) :
  h !! this = Some c ->
  wf c ->
  returns (hasIndex this i) h false ->
  returns (index this (VNum i)) h VUndefined /\
  returns (indexToKey this (VNum i)) h VUndefined /\
  returns (removeIndex this (VNum i)) h VUndefined.
Proof.
  intros Hthis [_ Hundef] Hidx.
  assert (Hloop : forall xs : list jsval,
            length xs = length (_map c) -> nth_loop xs 0 (VNum i) = VUndefined).
  { intros xs Hlen. rewrite nth_loop_lookup. case_decide; [|done].
    destruct (hasIndex_false_lookup _ _ _ _ Hthis Hidx) as [?|Hnone]; [lia|].
    apply lookup_ge_None in Hnone.
    replace (i - 0) with i by lia.
    by rewrite (proj2 (lookup_ge_None xs (Z.to_nat i))) by lia. }
  assert (Hkey : returns (indexToKey this (VNum i)) h VUndefined).
  { pose proof (indexToKey_run _ _ _ Hthis (VNum i)) as Hrun.
    rewrite Hloop in Hrun; [done|]. unfold JsMap.keys. apply length_fmap. }
  split; [|split; [done|]].
  - pose proof (index_run _ _ _ Hthis (VNum i)) as Hrun.
    rewrite Hloop in Hrun; [done|]. unfold JsMap.values. apply length_fmap.
  - unfold returns, removeIndex. rewrite (bind_ok _ _ _ _ _ Hkey).
    apply (removeKey_absent _ _ _ Hthis).
    by apply JsMapFacts.has_false_not_elem_of.
Qed.

Lemma invalid_index_witness :
  returns (removeIndex 0%nat (VNum 2))
    ({[ 0%nat := mkCollection true None false None
                   [(VStr "a", VNum 5); (VStr "b", VNum 6)] ]} : heap)
    VUndefined.
Proof.
  apply (invalid_index
           ({[ 0%nat := mkCollection true None false None
                          [(VStr "a", VNum 5); (VStr "b", VNum 6)] ]} : heap)
           0%nat
           (mkCollection true None false None
              [(VStr "a", VNum 5); (VStr "b", VNum 6)]) 2).
  - reflexivity.
  - apply (bool_decide_unpack _). vm_compute. exact I.
  - reflexivity.
Defined.



(** ** [first], [last] and the searches by value *)

(** X4.  Whatever default iteration yields, [first] returns its first
    value and [last] its final one, and on a collection that is not empty
    [lastIndex] is [size - 1], a valid index. *)
Theorem first_last_of_iteration (h : heap) this c vs :
  h !! this = Some c ->
  returns (iterator this) h vs ->
  (forall v, head vs = Some v -> returns (get_first this) h v) /\
  (forall v, last vs = Some v ->
     returns (get_last this) h v /\
     returns (get_lastIndex this) h (VNum (Z.of_nat (length vs) - 1)) /\
     returns (hasIndex this (Z.of_nat (length vs) - 1)) h true).
Proof.
  intros Hthis Hit. pose proof (iterator_run _ _ _ Hthis) as Hit'.
  unfold returns in Hit, Hit'. rewrite Hit' in Hit. injection Hit as <-.
  split.
  - intros v Hv. unfold returns, get_first. rewrite (bind_ok _ _ _ _ _ Hit').
    destruct (JsMap.values (_map c)); [done|]. by injection Hv as ->.
  - intros v Hv.
    assert (Hlen : length (JsMap.values (_map c)) = length (_map c))
      by (unfold JsMap.values; apply length_fmap).
    assert (Hpos : (0 < length (_map c))%nat).
    { rewrite <- Hlen. destruct (JsMap.values (_map c)); simpl; [done | lia]. }
    assert (Hli : returns (get_lastIndex this) h
                    (VNum (Z.of_nat (length (JsMap.values (_map c))) - 1))).
    { pose proof (get_lastIndex_run _ _ _ Hthis) as Hrun.
      unfold JsMap.size in Hrun. rewrite Hlen.
      destruct (Z.of_nat (length (_map c)) =? 0) eqn:E; [|done].
      apply Z.eqb_eq in E. lia. }
    split; [|split; [done|]].
    + unfold returns, get_last. rewrite (bind_ok _ _ _ _ _ Hli). simpl.
      pose proof (index_run _ _ _ Hthis
                    (VNum (Z.of_nat (length (JsMap.values (_map c))) - 1)))
        as Hrun.
      rewrite nth_loop_lookup, decide_True in Hrun by lia.
      rewrite last_lookup in Hv.
      replace (Z.to_nat (Z.of_nat (length (JsMap.values (_map c))) - 1 - 0))
        with (pred (length (JsMap.values (_map c)))) in Hrun by lia.
      by rewrite Hv in Hrun.
    + pose proof (hasIndex_run _ _ _
                    (Z.of_nat (length (JsMap.values (_map c))) - 1) Hthis)
        as Hrun.
      replace ((0 <=? _) && _) with true in Hrun; [done|].
      symmetry. apply andb_true_intro. unfold JsMap.size.
      split; [apply Z.leb_le | apply Z.ltb_lt]; lia.
Qed.

Lemma first_last_of_iteration_witness :
  returns (get_first 0%nat)
    ({[ 0%nat := mkCollection true None false None
                   [(VStr "a", VNum 5); (VStr "b", VNum 6)] ]} : heap)
    (VNum 5) /\
  returns (get_last 0%nat)
    ({[ 0%nat := mkCollection true None false None
                   [(VStr "a", VNum 5); (VStr "b", VNum 6)] ]} : heap)
    (VNum 6).
Proof.
  destruct (first_last_of_iteration
              ({[ 0%nat := mkCollection true None false None
                             [(VStr "a", VNum 5); (VStr "b", VNum 6)] ]} : heap)
              0%nat
              (mkCollection true None false None
                 [(VStr "a", VNum 5); (VStr "b", VNum 6)])
              [VNum 5; VNum 6])
    as [Hfirst Hlast].
  - reflexivity.
  - reflexivity.
  - split; [apply Hfirst; reflexivity | apply Hlast; reflexivity].
Defined.



(** ** Removal and the other keys *)

Lemma JsMap_get_delete_ne k k' (m : JsMap.t) :
  k ≠ k' -> JsMap.get k' (JsMap.delete k m).2 = JsMap.get k' m.
Proof.
  intros Hne. induction m as [|[k0 v0] m IH]; simpl; [done|].
  case_decide; simpl; subst.
  - by rewrite decide_False.
  - destruct (JsMap.delete k m) as [d m'] eqn:E. simpl in *.
    case_decide; done.
Qed.

Lemma JsMap_has_delete_ne k k' (m : JsMap.t) :
  k ≠ k' -> JsMap.has k' (JsMap.delete k m).2 = JsMap.has k' m.
Proof.
  intros Hne. induction m as [|[k0 v0] m IH]; simpl; [done|].
  case_decide; simpl; subst.
  - by rewrite decide_False.
  - destruct (JsMap.delete k m) as [d m'] eqn:E. simpl in *.
    case_decide; done.
Qed.

Lemma filter_ne_absent (k : jsval) (l : list jsval) :
  k ∉ l -> List.filter (fun k' => negb (strict_eq k' k)) l = l.
Proof.
  induction l as [|x l IH]; [done|].
  intros [Hne Hl]%not_elem_of_cons. simpl. unfold strict_eq at 1.
  rewrite bool_decide_eq_false_2 by (by intros ->). simpl. by rewrite IH.
Qed.

(** Without duplicate keys, [delete] removes every occurrence of the key. *)
Lemma JsMap_keys_delete_filter k (m : JsMap.t) :
  NoDup (JsMap.keys m) ->
  JsMap.keys (JsMap.delete k m).2
  = List.filter (fun k' => negb (strict_eq k' k)) (JsMap.keys m).
Proof.
  unfold JsMap.keys. induction m as [|[k0 v0] m IH]; csimpl; [done|].
  intros [Hk0 Hnd]%NoDup_cons. unfold strict_eq at 1.
  case_decide; csimpl; subst.
  - rewrite bool_decide_eq_true_2 by done. simpl.
    by rewrite filter_ne_absent.
  - rewrite bool_decide_eq_false_2 by done. simpl.
    destruct (JsMap.delete k m) as [d m'] eqn:E. csimpl in *.
    by rewrite IH.
Qed.

Section Removal.
Context (h : heap) (this : loc) (c : BulletproofCollection).
Hypothesis Hthis : h !! this = Some c.
Hypothesis Hwf : wf c.

(** The store a removal of a present key leaves. *)
Lemma removeKey_present_run k :
  JsMap.has k (_map c) = true ->
  exists c',
    removeKey this k h = (Ok (JsMap.get k (_map c)), <[this := c']> h) /\
    _map c' = (JsMap.delete k (_map c)).2 /\
    (forall ec, _ec c = Some ec ->
       _ec c' = Some (mkEmitter
                        (emitted ec
                           ++ [("remove", JsMap.get k (_map c), k, this)]))) /\
    (_ec c = None -> _ec c' = None).
Proof.
  intros Hk. pose proof (removeKey_run _ _ _ Hthis k) as Hrun.
  rewrite Hk in Hrun. eexists. split; [exact Hrun|].
  split; [by rewrite record_event_map|].
  unfold record_event. simpl. split.
  - intros ec Hec. by rewrite Hec.
  - intros Hec. by rewrite Hec.
Qed.

Lemma removeKey_present_after k c' :
  JsMap.has k (_map c) = true ->
  _map c' = (JsMap.delete k (_map c)).2 ->
  returns (hasKey this k) (<[this := c']> h) false /\
  returns (key this k) (<[this := c']> h) VUndefined /\
  returns (get_size this) (<[this := c']> h) (JsMap.size (_map c) - 1) /\
  returns (get_keys this) (<[this := c']> h)
    (List.filter (fun k' => negb (strict_eq k' k)) (JsMap.keys (_map c))) /\
  forall k', k' ≠ k ->
    (key this k' (<[this := c']> h)).1 = (key this k' h).1 /\
    (hasKey this k' (<[this := c']> h)).1 = (hasKey this k' h).1.
Proof.
  intros Hk Hmap. destruct Hwf as [Hnd _].
  assert (Hc' : (<[this := c']> h) !! this = Some c') by apply lookup_insert_eq.
  assert (Hgone : JsMap.has k (_map c') = false)
    by (rewrite Hmap; by apply JsMapFacts.has_delete_NoDup).
  split; [|split; [|split; [|split]]].
  - pose proof (hasKey_run _ _ _ Hc' k) as Hrun. by rewrite Hgone in Hrun.
  - pose proof (key_run _ _ _ Hc' k) as Hrun.
    by rewrite (JsMapFacts.get_absent _ _ Hgone) in Hrun.
  - pose proof (get_size_run _ _ _ Hc') as Hrun.
    by rewrite Hmap, JsMapFacts.size_delete_present in Hrun.
  - pose proof (get_keys_run _ _ _ Hc') as Hrun.
    by rewrite Hmap, JsMap_keys_delete_filter in Hrun.
  - intros k' Hne.
    rewrite (key_run _ _ _ Hc' k'), (key_run _ _ _ Hthis k').
    rewrite (hasKey_run _ _ _ Hc' k'), (hasKey_run _ _ _ Hthis k').
    simpl. rewrite Hmap.
    by rewrite JsMap_get_delete_ne, JsMap_has_delete_ne.
Qed.

End Removal.

(** X6.  On a well-formed collection that has the key [k], [removeKey(k)]
    returns the value stored for [k]; afterwards the collection no longer
    has [k], [size] is one less, the other keys keep their order, and every
    other key has the value and the presence it had. *)
Theorem removeKey_postcondition (h : heap) this c k :
  h !! this = Some c ->
  wf c ->
  returns (hasKey this k) h true ->
  exists (h' : heap) (v : jsval) (n : Z) (ks : list jsval),
    returns (key this k) h v /\
    returns (get_size this) h n /\
    returns (get_keys this) h ks /\
    removeKey this k h = (Ok v, h') /\
    returns (hasKey this k) h' false /\
    returns (key this k) h' VUndefined /\
    returns (get_size this) h' (n - 1) /\
    returns (get_keys this) h' (List.filter (fun k' => negb (strict_eq k' k)) ks) /\
    forall k', k' ≠ k ->
      (key this k' h').1 = (key this k' h).1 /\
      (hasKey this k' h').1 = (hasKey this k' h).1.
Proof.
  intros Hthis Hwf Hhas. pose proof (hasKey_run _ _ _ Hthis k) as Hhas'.
  unfold returns in Hhas, Hhas'. rewrite Hhas' in Hhas. injection Hhas as Hk.
  destruct (removeKey_present_run _ _ _ Hthis k Hk) as (c' & Hrun & Hmap & _).
  destruct (removeKey_present_after _ _ _ Hthis Hwf k c' Hk Hmap)
    as (H1 & H2 & H3 & H4 & H5).
  exists (<[this := c']> h), (JsMap.get k (_map c)), (JsMap.size (_map c)),
    (JsMap.keys (_map c)).
  split; [by apply key_run|]. split; [by apply get_size_run|].
  split; [by apply get_keys_run|]. done.
Qed.

Lemma removeKey_postcondition_witness :
  exists (h' : heap),
    removeKey 0%nat (VStr "a")
      ({[ 0%nat := mkCollection true None false None
                     [(VStr "a", VNum 5); (VStr "b", VNum 6)] ]} : heap)
    = (Ok (VNum 5), h') /\
    returns (get_keys 0%nat) h' [VStr "b"].
Proof.
  destruct (removeKey_postcondition
              ({[ 0%nat := mkCollection true None false None
                             [(VStr "a", VNum 5); (VStr "b", VNum 6)] ]} : heap)
              0%nat
              (mkCollection true None false None
                 [(VStr "a", VNum 5); (VStr "b", VNum 6)]) (VStr "a"))
    as (h' & v & n & ks & Hv & _ & Hks & Hrun & _ & _ & _ & Hks' & _).
  - reflexivity.
  - apply (bool_decide_unpack _). vm_compute. exact I.
  - reflexivity.
  - exists h'. injection Hv as <-. injection Hks as <-.
    split; [exact Hrun | exact Hks'].
Defined.



(** X8.  [addCustom(k, v)] with a key other than [undefined] touches no
    other key: every key [k'] different from [k] has afterwards the value
    and the presence it had before. *)
Theorem addCustom_other_keys (h : heap) this c k v k' :
  h !! this = Some c ->
  k ≠ VUndefined ->
  k' ≠ k ->
  exists h' : heap,
    addCustom this k v h = (Ok this, h') /\
    (key this k' h').1 = (key this k' h).1 /\
    (hasKey this k' h').1 = (hasKey this k' h).1.
Proof.
  intros Hthis Hk Hne. eexists. split; [by apply addCustom_run|].
  set (c' := record_event this "add" v k _).
  assert (Hc' : (<[this := c']> h) !! this = Some c') by apply lookup_insert_eq.
  assert (Hmap : _map c' = JsMap.set k v (_map c))
    by (unfold c'; by rewrite record_event_map).
  rewrite (key_run _ _ _ Hc' k'), (key_run _ _ _ Hthis k').
  rewrite (hasKey_run _ _ _ Hc' k'), (hasKey_run _ _ _ Hthis k').
  simpl. rewrite Hmap.
  by rewrite JsMapFacts.get_set_ne, JsMapFacts.has_set_ne by done.
Qed.

Lemma addCustom_other_keys_witness :
  exists h' : heap,
    addCustom 0%nat (VStr "b") (VNum 9)
      ({[ 0%nat := mkCollection true None false None [(VStr "a", VNum 5)] ]} : heap)
    = (Ok 0%nat, h') /\
    (key 0%nat (VStr "a") h').1 = Ok (VNum 5).
Proof.
  destruct (addCustom_other_keys
              ({[ 0%nat := mkCollection true None false None
                             [(VStr "a", VNum 5)] ]} : heap)
              0%nat (mkCollection true None false None [(VStr "a", VNum 5)])
              (VStr "b") (VNum 9) (VStr "a"))
    as (h' & Hrun & Hkey & _).
  - reflexivity.
  - discriminate.
  - discriminate.
  - exists h'. split; [exact Hrun | exact Hkey].
Defined.

(** X9.  On a well-formed collection, removing a key it has and inserting
    that key again does not give the key its place back: it is now the last
    key, after the other keys in their order. *)
Theorem remove_then_add_moves_last (h : heap) this c k v :
  h !! this = Some c ->
  wf c ->
  k ≠ VUndefined ->
  returns (hasKey this k) h true ->
  exists (h' : heap) (ks : list jsval),
    returns (get_keys this) h ks /\
    (removeKey this k ;;; addCustom this k v) h = (Ok this, h') /\
    returns (get_keys this) h'
      (List.filter (fun k' => negb (strict_eq k' k)) ks ++ [k]) /\
    returns (get_last this) h' v.
Proof.
  intros Hthis Hwf Hundef Hhas. pose proof (hasKey_run _ _ _ Hthis k) as Hhas'.
  unfold returns in Hhas, Hhas'. rewrite Hhas' in Hhas. injection Hhas as Hk.
  destruct (removeKey_present_run _ _ _ Hthis k Hk) as (c1 & Hrun & Hmap & _).
  assert (Hc1 : (<[this := c1]> h) !! this = Some c1) by apply lookup_insert_eq.
  assert (Hgone : JsMap.has k (_map c1) = false)
    by (rewrite Hmap; apply JsMapFacts.has_delete_NoDup, Hwf).
  exists (<[this := record_event this "add" v k
                      (with_map c1 (JsMap.set k v (_map c1)))]> h),
    (JsMap.keys (_map c)).
  split; [by apply get_keys_run|]. split.
  - rewrite (bind_ok _ _ _ _ _ Hrun).
    rewrite (addCustom_run _ _ _ Hc1 k v Hundef). by rewrite insert_insert_eq.
  - set (c2 := record_event this "add" v k _).
    assert (Hc2 : (<[this := c2]> h) !! this = Some c2) by apply lookup_insert_eq.
    assert (Hmap2 : _map c2 = (JsMap.delete k (_map c)).2 ++ [(k, v)]).
    { unfold c2. rewrite record_event_map. simpl.
      by rewrite JsMapFacts.set_absent, Hmap. }
    split.
    + pose proof (get_keys_run _ _ _ Hc2) as Hks. rewrite Hmap2 in Hks.
      unfold JsMap.keys in Hks. rewrite fmap_app in Hks.
      fold (JsMap.keys (JsMap.delete k (_map c)).2) in Hks.
      by rewrite JsMap_keys_delete_filter in Hks by apply Hwf.
    + unfold returns, get_last.
      pose proof (get_lastIndex_run _ _ _ Hc2) as Hli.
      rewrite (bind_ok _ _ _ _ _ Hli).
      unfold JsMap.size. rewrite Hmap2, length_app. simpl.
      destruct (Z.of_nat _ =? 0) eqn:E; [apply Z.eqb_eq in E; lia|]. simpl.
      pose proof (index_run _ _ _ Hc2
                    (VNum (Z.of_nat (length (JsMap.delete k (_map c)).2 + 1) - 1)))
        as Hidx.
      rewrite nth_loop_lookup, decide_True in Hidx by lia.
      unfold JsMap.values in Hidx. rewrite Hmap2, fmap_app in Hidx.
      rewrite lookup_app_r in Hidx by (rewrite length_fmap; lia).
      rewrite length_fmap in Hidx.
      replace (Z.to_nat _ - _)%nat with 0%nat in Hidx by lia.
      exact Hidx.
Qed.

Lemma remove_then_add_moves_last_witness :
  exists (h' : heap),
    (removeKey 0%nat (VStr "a") ;;; addCustom 0%nat (VStr "a") (VNum 7))
      ({[ 0%nat := mkCollection true None false None
                     [(VStr "a", VNum 5); (VStr "b", VNum 6)] ]} : heap)
    = (Ok 0%nat, h') /\
    returns (get_keys 0%nat) h' [VStr "b"; VStr "a"].
Proof.
  destruct (remove_then_add_moves_last
              ({[ 0%nat := mkCollection true None false None
                             [(VStr "a", VNum 5); (VStr "b", VNum 6)] ]} : heap)
              0%nat
              (mkCollection true None false None
                 [(VStr "a", VNum 5); (VStr "b", VNum 6)]) (VStr "a") (VNum 7))
    as (h' & ks & Hks & Hrun & Hks' & _).
  - reflexivity.
  - apply (bool_decide_unpack _). vm_compute. exact I.
  - discriminate.
  - reflexivity.
  - exists h'. injection Hks as <-. split; [exact Hrun | exact Hks'].
Defined.

(** ** Events *)

(** X10.  On a collection with an event emitter, [addCustom(k, v)] with a
    key other than [undefined] emits exactly one event, [add] with
    [(v, k, this)]; [removeKey(k)] of a key the collection has emits exactly
    one event, [remove] with the removed value; and [removeKey(k)] of a key
    it does not have emits nothing and leaves the store as it was. *)
Theorem events_emitted (h : heap) this c ec k v :
  h !! this = Some c ->
  _ec c = Some ec ->
  (k ≠ VUndefined ->
   exists c',
     (addCustom this k v h).2 !! this = Some c' /\
     _ec c' = Some (mkEmitter (emitted ec ++ [("add", v, k, this)]))) /\
  (returns (hasKey this k) h true ->
   exists c' old,
     returns (key this k) h old /\
     (removeKey this k h).2 !! this = Some c' /\
     _ec c' = Some (mkEmitter (emitted ec ++ [("remove", old, k, this)]))) /\
  (returns (hasKey this k) h false ->
   removeKey this k h = (Ok VUndefined, h)).
Proof.
  intros Hthis Hec. pose proof (hasKey_run _ _ _ Hthis k) as Hhas'.
  unfold returns in Hhas'. split; [|split].
  - intros Hk. rewrite (addCustom_run _ _ _ Hthis k v Hk). simpl.
    eexists. split; [apply lookup_insert_eq|].
    unfold record_event. simpl. by rewrite Hec.
  - intros Hhas. unfold returns in Hhas. rewrite Hhas' in Hhas.
    injection Hhas as Hk.
    destruct (removeKey_present_run _ _ _ Hthis k Hk) as (c' & Hrun & _ & Hev & _).
    exists c', (JsMap.get k (_map c)). split; [by apply key_run|].
    rewrite Hrun. simpl. split; [apply lookup_insert_eq | by apply Hev].
  - intros Hhas. unfold returns in Hhas. rewrite Hhas' in Hhas.
    injection Hhas as Hk. by apply (removeKey_absent _ _ _ Hthis).
Qed.

Lemma events_emitted_witness :
  exists c',
    (addCustom 0%nat (VStr "k") (VNum 7)
       ({[ 0%nat := mkCollection true None true (Some (mkEmitter [])) [] ]} : heap)).2
      !! 0%nat = Some c' /\
    _ec c' = Some (mkEmitter [("add", VNum 7, VStr "k", 0%nat)]).
Proof.
  destruct (events_emitted
              ({[ 0%nat := mkCollection true None true (Some (mkEmitter [])) [] ]} : heap)
              0%nat (mkCollection true None true (Some (mkEmitter [])) [])
              (mkEmitter []) (VStr "k") (VNum 7))
    as [Hadd _].
  - reflexivity.
  - reflexivity.
  - destruct Hadd as (c' & Hc' & Hec); [discriminate|].
    exists c'. split; [exact Hc' | exact Hec].
Defined.

(** ** Construction and [reset] *)

(** X11.  [new BulletproofCollection(config)] throws an
    [EventsSupportError] exactly when [enableEvents] is truthy and no
    [EventCenter] is available.  Otherwise it returns a reference that did
    not exist before, to an empty collection with the key extractor of the
    configuration, the events flag [Boolean(enableEvents)], and an emitter
    that has emitted nothing exactly when that flag is on.  Either way no
    existing collection is changed. *)
Theorem constructor_outcome EventCenter config (h : heap) :
  exists h' : heap,
    (forall l c, h !! l = Some c -> h' !! l = Some c) /\
    if ToBoolean (enableEvents config) && negb EventCenter
    then constructor EventCenter (Some config) h
         = (Throw (EventsSupportError "Events are not supported."), h')
    else exists this c,
        constructor EventCenter (Some config) h = (Ok this, h') /\
        h !! this = None /\
        h' !! this = Some c /\
        returns (get_size this) h' 0 /\
        _keyExtractor c = keyExtractor config /\
        _enableEvents c = ToBoolean (enableEvents config) /\
        _ec c = if ToBoolean (enableEvents config)
                then Some (mkEmitter []) else None.
Proof.
  rewrite constructor_run.
  assert (Hold : forall c0 l c, h !! l = Some c ->
                   <[fresh (dom h) := c0]> h !! l = Some c).
  { intros c0 l c Hl. rewrite lookup_insert_ne; [done|]. intros <-.
    by rewrite fresh_lookup in Hl. }
  destruct (ToBoolean (enableEvents config) && negb EventCenter).
  - eexists. split; [apply Hold | done].
  - eexists. split; [apply Hold|].
    exists (fresh (dom h)), (new_collection config).
    split; [done|]. split; [apply fresh_lookup|].
    split; [apply lookup_insert_eq|]. split; [|done].
    exact (get_size_run _ _ _
             (lookup_insert_eq h (fresh (dom h)) (new_collection config))).
Qed.

(** X12.  [reset()] empties the collection: [size] is 0 and the key
    sequence is empty afterwards.  It keeps the key extractor and the
    events flag, emits no event (the emitter is as it was) and changes no
    other collection. *)
Theorem reset_postcondition (h : heap) this c :
  h !! this = Some c ->
  exists (h' : heap) c',
    reset this h = (Ok tt, h') /\
    h' !! this = Some c' /\
    returns (get_size this) h' 0 /\
    returns (get_keys this) h' [] /\
    _keyExtractor c' = _keyExtractor c /\
    _enableEvents c' = _enableEvents c /\
    _ec c' = _ec c /\
    forall l, l ≠ this -> h' !! l = h !! l.
Proof.
  intros Hthis. unfold reset. rewrite (update_ok _ _ _ _ Hthis).
  eexists _, _. split; [done|]. split; [apply lookup_insert_eq|].
  split; [exact (get_size_run _ _ _
                   (lookup_insert_eq h this (with_map c JsMap.empty)))|].
  split; [exact (get_keys_run _ _ _
                   (lookup_insert_eq h this (with_map c JsMap.empty)))|].
  split; [done|]. split; [done|]. split; [done|].
  intros l Hl. by rewrite lookup_insert_ne.
Qed.

Lemma reset_postcondition_witness :
  exists (h' : heap),
    reset 0%nat
      ({[ 0%nat := mkCollection true None false None [(VStr "a", VNum 5)] ]} : heap)
    = (Ok tt, h') /\
    returns (get_size 0%nat) h' 0.
Proof.
  destruct (reset_postcondition
              ({[ 0%nat := mkCollection true None false None
                             [(VStr "a", VNum 5)] ]} : heap)
              0%nat (mkCollection true None false None [(VStr "a", VNum 5)]))
    as (h' & c' & Hrun & _ & Hsize & _).
  - reflexivity.
  - exists h'. split; [exact Hrun | exact Hsize].
Defined.

(** ** [add] with a key extractor *)

(** X13.  On a collection with a key extractor, [add(value)] files the
    value under the key the extractor gives: afterwards [key] of that key
    returns the value and the collection has the key.  When the extractor
    gives [undefined], [add(value)] throws an [InvalidArgumentsError] and
    leaves the store as it was. *)
Theorem add_with_keyExtractor (h : heap) this c extract value :
  h !! this = Some c ->
  _keyExtractor c = Some extract ->
  (extract value ≠ VUndefined ->
   exists h' : heap,
     add this value h = (Ok this, h') /\
     returns (key this (extract value)) h' value /\
     returns (hasKey this (extract value)) h' true) /\
  (extract value = VUndefined ->
   add this value h
   = (Throw (InvalidArgumentsError "'undefined' keys are not allowed."), h)).
Proof.
  intros Hthis Hex.
  assert (Hadd : add this value h = addCustom this (extract value) value h).
  { unfold add. rewrite (bind_ok _ _ _ _ _ (deref_ok _ _ _ Hthis)).
    by rewrite Hex. }
  rewrite Hadd. split.
  - intros Hk. eexists. split; [by apply addCustom_run|].
    set (c' := record_event this "add" value (extract value) _).
    assert (Hc' : (<[this := c']> h) !! this = Some c') by apply lookup_insert_eq.
    assert (Hmap : _map c' = JsMap.set (extract value) value (_map c))
      by (unfold c'; by rewrite record_event_map).
    split.
    + pose proof (key_run _ _ _ Hc' (extract value)) as Hrun.
      by rewrite Hmap, JsMapFacts.get_set_eq in Hrun.
    + pose proof (hasKey_run _ _ _ Hc' (extract value)) as Hrun.
      by rewrite Hmap, JsMapFacts.has_set_eq in Hrun.
  - intros ->. done.
Qed.

Lemma add_with_keyExtractor_witness :
  exists h' : heap,
    add 0%nat (VNum 4)
      ({[ 0%nat := mkCollection true (Some (fun v => v)) false None [] ]} : heap)
    = (Ok 0%nat, h') /\
    returns (key 0%nat (VNum 4)) h' (VNum 4).
Proof.
  destruct (add_with_keyExtractor
              ({[ 0%nat := mkCollection true (Some (fun v => v)) false None [] ]} : heap)
              0%nat (mkCollection true (Some (fun v => v)) false None [])
              (fun v => v) (VNum 4))
    as [Hok _].
  - reflexivity.
  - reflexivity.
  - destruct Hok as (h' & Hrun & Hkey & _); [discriminate|].
    exists h'. split; [exact Hrun | exact Hkey].
Defined.

(** ** Snapshots and transforms *)

Lemma foldl_set_append (m acc : JsMap.t) :
  NoDup (JsMap.keys m) ->
  (forall k, k ∈ JsMap.keys m -> k ∉ JsMap.keys acc) ->
  foldl (fun res kv => JsMap.set kv.1 kv.2 res) acc m = acc ++ m.
Proof.
  unfold JsMap.keys. revert acc.
  induction m as [|[k v] m IH]; intros acc; csimpl.
  - intros _ _. by rewrite app_nil_r.
  - intros [Hk Hnd]%NoDup_cons Hfresh.
    rewrite JsMapFacts.set_absent
      by (apply JsMapFacts.has_false_not_elem_of, Hfresh; by left).
    rewrite IH; [by rewrite <- app_assoc | done |].
    intros k' Hk'. rewrite fmap_app, elem_of_app.
    intros [Hin|Hin%list_elem_of_singleton].
    + by apply (Hfresh k'); [right|].
    + simpl in Hin. by subst k'.
Qed.

Lemma Map_forEach_filterToArray fn thisArg this (m : JsMap.t) acc (h : heap) :
  Map_forEach m
    (fun res value k =>
       if ToBoolean (fn thisArg value k this) then ret (res ++ [value])
       else ret res)
    acc h
  = (Ok (acc ++ JsMap.values (List.filter (keeps fn thisArg this) m)), h).
Proof.
  unfold JsMap.values. revert acc.
  induction m as [|[k v] m IH]; intros acc; simpl.
  - by rewrite app_nil_r.
  - unfold keeps at 1. simpl. destruct (ToBoolean (fn thisArg v k this)).
    + unfold bind, ret at 1. rewrite IH. csimpl. by rewrite <- app_assoc.
    + unfold bind, ret at 1. by rewrite IH.
Qed.

(** X14.  On a well-formed collection, [toMap()] returns a map with exactly
    the entries [keysAndValues] yields, in the same order, and leaves the
    store as it was. *)
Theorem toMap_snapshot (h : heap) this c kvs :
  h !! this = Some c ->
  wf c ->
  returns (get_keysAndValues this) h kvs ->
  returns (toMap this) h kvs.
Proof.
  intros Hthis [Hnd _] Hkvs.
  pose proof (get_keysAndValues_run _ _ _ Hthis) as Hkvs'.
  unfold returns in Hkvs, Hkvs'. rewrite Hkvs' in Hkvs. injection Hkvs as <-.
  pose proof (forEach_pure _ _ _ Hthis
                (fun _ res value k _ => JsMap.set k value res) VUndefined
                JsMap.empty) as Hrun.
  cbv beta in Hrun.
  rewrite (foldl_set_append (_map c) JsMap.empty Hnd) in Hrun; [done|].
  intros k _. by intros ?%elem_of_nil.
Qed.

Lemma toMap_snapshot_witness :
  returns (toMap 0%nat)
    ({[ 0%nat := mkCollection true None false None
                   [(VStr "a", VNum 5); (VStr "b", VNum 6)] ]} : heap)
    [(VStr "a", VNum 5); (VStr "b", VNum 6)].
Proof.
  apply (toMap_snapshot
           ({[ 0%nat := mkCollection true None false None
                          [(VStr "a", VNum 5); (VStr "b", VNum 6)] ]} : heap)
           0%nat
           (mkCollection true None false None
              [(VStr "a", VNum 5); (VStr "b", VNum 6)])).
  - reflexivity.
  - apply (bool_decide_unpack _). vm_compute. exact I.
  - reflexivity.
Defined.

(** X15.  On a well-formed collection, [filterToArray(fn)] returns, without
    changing the store, exactly the values that default iteration yields on
    the collection [filter(fn)] returns, in the same order. *)
Theorem filterToArray_agrees_with_filter EventCenter (h : heap) this c fn thisArg :
  h !! this = Some c ->
  wf c ->
  exists (vs : list jsval) (res : loc) (h' : heap),
    returns (filterToArray this fn thisArg) h vs /\
    filter EventCenter this fn thisArg h = (Ok res, h') /\
    returns (iterator res) h' vs.
Proof.
  intros Hthis Hwf.
  exists (JsMap.values (List.filter (keeps fn thisArg this) (_map c))).
  eexists _, _. split; [|split; [by apply filter_run|]].
  - unfold returns, filterToArray, forEach.
    rewrite (bind_ok _ _ _ _ _ (deref_ok _ _ _ Hthis)).
    apply (Map_forEach_filterToArray fn thisArg this (_map c) [] h).
  - exact (iterator_run _ _ _
             (lookup_insert_eq h (fresh (dom h))
                (with_map (new_collection (filter_config c))
                   (List.filter (keeps fn thisArg this) (_map c))))).
Qed.

Lemma filterToArray_agrees_with_filter_witness :
  exists (vs : list jsval) (res : loc) (h' : heap),
    returns (filterToArray 0%nat (fun _ v _ _ => VBool (bool_decide (v = VNum 6)))
               VUndefined)
      ({[ 0%nat := mkCollection true None false None
                     [(VStr "a", VNum 5); (VStr "b", VNum 6)] ]} : heap) vs /\
    filter true 0%nat (fun _ v _ _ => VBool (bool_decide (v = VNum 6))) VUndefined
      ({[ 0%nat := mkCollection true None false None
                     [(VStr "a", VNum 5); (VStr "b", VNum 6)] ]} : heap)
    = (Ok res, h') /\
    returns (iterator res) h' vs.
Proof.
  apply (filterToArray_agrees_with_filter true
           ({[ 0%nat := mkCollection true None false None
                          [(VStr "a", VNum 5); (VStr "b", VNum 6)] ]} : heap)
           0%nat
           (mkCollection true None false None
              [(VStr "a", VNum 5); (VStr "b", VNum 6)])).
  - reflexivity.
  - apply (bool_decide_unpack _). vm_compute. exact I.
Defined.



(** ** Invariants seen through the interface *)

(** X17.  After any sequence of calls of the interface, starting from no
    collection at all, the key sequence of every collection has no
    repetition, and [size] is its length: [size] counts distinct keys. *)
Theorem keys_are_distinct EventCenter cls this ks :
  returns (get_keys this) (perform_all EventCenter cls (∅ : heap)) ks ->
  NoDup ks /\
  returns (get_size this) (perform_all EventCenter cls (∅ : heap))
    (Z.of_nat (length ks)).
Proof.
  intros Hks. set (h := perform_all EventCenter cls (∅ : heap)) in *.
  assert (Hwf : heap_wf h).
  { apply perform_all_heap_wf. intros l' c' Hl'. by rewrite lookup_empty in Hl'. }
  destruct (h !! this) as [c|] eqn:Hthis.
  - pose proof (get_keys_run _ _ _ Hthis) as Hks'.
    unfold returns in Hks, Hks'. rewrite Hks' in Hks. injection Hks as <-.
    split; [apply (Hwf this c Hthis)|].
    pose proof (get_size_run _ _ _ Hthis) as Hsize.
    unfold JsMap.keys. by rewrite length_fmap.
  - unfold returns, get_keys, _keys, bind, deref in Hks.
    by rewrite Hthis in Hks.
Qed.

Lemma keys_are_distinct_witness :
  NoDup [VStr "a"; VNull].
Proof.
  apply (keys_are_distinct true
           [CallNew (Some defaultBulletproofConfig);
            CallAddCustom 0%nat (VStr "a") (VNum 1);
            CallAddCustom 0%nat VNull (VNum 2);
            CallAddCustom 0%nat (VStr "a") (VNum 3)]
           0%nat [VStr "a"; VNull]).
  reflexivity.
Defined.

(** X18.  No sequence of calls of the interface removes a collection from
    the store or changes the key extractor or the events flag it was
    constructed with. *)
Theorem configuration_is_fixed EventCenter cls (h : heap) this c :
  h !! this = Some c ->
  exists c',
    perform_all EventCenter cls h !! this = Some c' /\
    _keyExtractor c' = _keyExtractor c /\
    _enableEvents c' = _enableEvents c.
Proof.
  intros Hthis.
  destruct (perform_all_evolves EventCenter cls h this c Hthis)
    as (c' & Hc' & Hke & Hee & _).
  by exists c'.
Qed.

Lemma configuration_is_fixed_witness :
  exists c',
    perform_all true [CallReset 0%nat; CallActivateEvents 0%nat]
      ({[ 0%nat := mkCollection true None false None [(VStr "a", VNum 5)] ]} : heap)
      !! 0%nat = Some c' /\
    _keyExtractor c' = None /\
    _enableEvents c' = false.
Proof.
  apply (configuration_is_fixed true [CallReset 0%nat; CallActivateEvents 0%nat]
           ({[ 0%nat := mkCollection true None false None
                          [(VStr "a", VNum 5)] ]} : heap)
           0%nat (mkCollection true None false None [(VStr "a", VNum 5)])).
  reflexivity.
Defined.

(** ** Random picks *)



(** The key [randomKey()] picks on a collection that is not empty. *)
Lemma randomKey_run (h : heap) this c (rnd : Q) :
  h !! this = Some c ->
  is_random rnd ->
  _map c ≠ [] ->
  exists (j : nat) (k v : jsval),
    (_map c : list (jsval * jsval)) !! j = Some (k, v) /\
    returns (randomKey this rnd) h k.
Proof.
  intros Hthis [H0 H1] Hne.
  assert (Hpos : 0 < JsMap.size (_map c)).
  { unfold JsMap.size. destruct (_map c); [done | simpl; lia]. }
  pose proof (randomBetween_range rnd 0 (JsMap.size (_map c) - 1) H0 H1) as Hr.
  set (i := randomBetween rnd 0 (JsMap.size (_map c) - 1)) in *.
  destruct (lookup_lt_is_Some_2 (_map c) (Z.to_nat i)) as [[k v] Hkv].
  { unfold JsMap.size in *. lia. }
  exists (Z.to_nat i), k, v. split; [done|].
  unfold returns, randomKey.
  rewrite (bind_ok _ _ _ _ _ (get_size_run _ _ _ Hthis)). simpl.
  destruct (JsMap.size (_map c) =? 0) eqn:E; [apply Z.eqb_eq in E; lia|]. simpl.
  pose proof (get_lastIndex_run _ _ _ Hthis) as Hli. rewrite E in Hli.
  rewrite (bind_ok _ _ _ _ _ Hli). fold i.
  pose proof (indexToKey_run _ _ _ Hthis (VNum i)) as Hk.
  rewrite nth_loop_lookup, decide_True in Hk by lia.
  replace (i - 0) with i in Hk by lia.
  unfold JsMap.keys in Hk. by rewrite list_lookup_fmap, Hkv in Hk.
Qed.

(** X20.  On a collection that is not empty, whatever [Math.random()]
    returns, [randomKey()] returns a key the collection has and [random()]
    returns a value the collection holds, the one [key] returns for that
    key; neither changes the store. *)
Theorem random_picks_an_entry (h : heap) this c (rnd : Q) (n : Z) :
  h !! this = Some c ->
  wf c ->
  is_random rnd ->
  returns (get_size this) h n ->
  0 < n ->
  exists k v : jsval,
    returns (randomKey this rnd) h k /\
    returns (hasKey this k) h true /\
    returns (random this rnd) h v /\
    returns (key this k) h v.
Proof.
  intros Hthis Hwf Hrnd Hsize Hn.
  pose proof (get_size_run _ _ _ Hthis) as Hsize'.
  unfold returns in Hsize, Hsize'. rewrite Hsize' in Hsize.
  injection Hsize as Hsize.
  destruct (randomKey_run _ _ _ rnd Hthis Hrnd) as (j & k & v & Hkv & Hk).
  { intros Hnil. rewrite Hnil in Hsize. simpl in Hsize. unfold JsMap.size in Hsize.
    simpl in Hsize. lia. }
  destruct (entry_at _ _ _ _ _ _ Hthis (proj1 Hwf) Hkv)
    as (_ & _ & Hhas & _ & _ & Hkey).
  exists k, v. split; [done|]. split; [done|]. split; [|done].
  unfold returns, random. by rewrite (bind_ok _ _ _ _ _ Hk).
Qed.

Lemma random_picks_an_entry_witness :
  exists k v : jsval,
    returns (randomKey 0%nat (1 # 2))
      ({[ 0%nat := mkCollection true None false None
                     [(VStr "a", VNum 5); (VStr "b", VNum 6)] ]} : heap) k /\
    returns (random 0%nat (1 # 2))
      ({[ 0%nat := mkCollection true None false None
                     [(VStr "a", VNum 5); (VStr "b", VNum 6)] ]} : heap) v.
Proof.
  destruct (random_picks_an_entry
              ({[ 0%nat := mkCollection true None false None
                             [(VStr "a", VNum 5); (VStr "b", VNum 6)] ]} : heap)
              0%nat
              (mkCollection true None false None
                 [(VStr "a", VNum 5); (VStr "b", VNum 6)]) (1 # 2) 2)
    as (k & v & Hk & _ & Hv & _).
  - reflexivity.
  - apply (bool_decide_unpack _). vm_compute. exact I.
  - split; [discriminate | reflexivity].
  - reflexivity.
  - lia.
  - exists k, v. split; [exact Hk | exact Hv].
Defined.

Lemma wf_same_map c c' : _map c' = _map c -> wf c -> wf c'.
Proof. unfold wf. by intros ->. Qed.

(** The store a random pull leaves on a collection that is not empty. *)
Lemma pull_run (h : heap) this c (rnd : Q) :
  h !! this = Some c ->
  wf c ->
  is_random rnd ->
  _map c ≠ [] ->
  exists (k v : jsval) c',
    returns (randomKey this rnd) h k /\
    JsMap.has k (_map c) = true /\
    JsMap.get k (_map c) = v /\
    _map c' = (JsMap.delete k (_map c)).2 /\
    pullRandomKey this rnd h = (Ok k, <[this := c']> h) /\
    pullRandom this rnd h = (Ok v, <[this := c']> h).
Proof.
  intros Hthis Hwf Hrnd Hne.
  destruct (randomKey_run _ _ _ rnd Hthis Hrnd Hne) as (j & k & v & Hkv & Hk).
  pose proof (JsMap_has_lookup _ _ _ _ Hkv) as Hhas.
  pose proof (JsMap_get_lookup _ _ _ _ (proj1 Hwf) Hkv) as Hget.
  destruct (removeKey_present_run _ _ _ Hthis k Hhas) as (c' & Hrun & Hmap & _).
  exists k, v, c'. split; [done|]. split; [done|]. split; [done|].
  split; [done|]. split.
  - unfold pullRandomKey. rewrite (bind_ok _ _ _ _ _ Hk).
    by rewrite (bind_ok _ _ _ _ _ Hrun).
  - unfold pullRandom. rewrite (bind_ok _ _ _ _ _ Hk). by rewrite Hrun, Hget.
Qed.

(** X21.  On a well-formed collection that is not empty, whatever
    [Math.random()] returns, [pullRandomKey()] returns a key the collection
    had and [pullRandom()] the value it held for such a key; afterwards the
    key is gone and [size] is one less. *)
Theorem pull_removes_an_entry (h : heap) this c (rnd : Q) (n : Z) :
  h !! this = Some c ->
  wf c ->
  is_random rnd ->
  returns (get_size this) h n ->
  0 < n ->
  exists (k v : jsval) (h' : heap),
    returns (hasKey this k) h true /\
    returns (key this k) h v /\
    pullRandomKey this rnd h = (Ok k, h') /\
    pullRandom this rnd h = (Ok v, h') /\
    returns (hasKey this k) h' false /\
    returns (get_size this) h' (n - 1).
Proof.
  intros Hthis Hwf Hrnd Hsize Hn.
  pose proof (get_size_run _ _ _ Hthis) as Hsize'.
  unfold returns in Hsize, Hsize'. rewrite Hsize' in Hsize.
  injection Hsize as Hsize.
  destruct (pull_run _ _ _ rnd Hthis Hwf Hrnd)
    as (k & v & c' & _ & Hhas & Hget & Hmap & Hpk & Hp).
  { intros Hnil. rewrite Hnil in Hsize. unfold JsMap.size in Hsize.
    simpl in Hsize. lia. }
  destruct (removeKey_present_after _ _ _ Hthis Hwf k c' Hhas Hmap)
    as (H1 & _ & H3 & _).
  exists k, v, (<[this := c']> h).
  split; [|split; [|split; [done|]; split; [done|]; split; [done|]]].
  - pose proof (hasKey_run _ _ _ Hthis k) as Hrun. by rewrite Hhas in Hrun.
  - pose proof (key_run _ _ _ Hthis k) as Hrun. by rewrite Hget in Hrun.
  - by rewrite <- Hsize.
Qed.

Lemma pull_removes_an_entry_witness :
  exists (k v : jsval) (h' : heap),
    pullRandomKey 0%nat (1 # 2)
      ({[ 0%nat := mkCollection true None false None
                     [(VStr "a", VNum 5); (VStr "b", VNum 6)] ]} : heap)
    = (Ok k, h') /\
    returns (get_size 0%nat) h' (2 - 1).
Proof.
  destruct (pull_removes_an_entry
              ({[ 0%nat := mkCollection true None false None
                             [(VStr "a", VNum 5); (VStr "b", VNum 6)] ]} : heap)
              0%nat
              (mkCollection true None false None
                 [(VStr "a", VNum 5); (VStr "b", VNum 6)]) (1 # 2) 2)
    as (k & v & h' & _ & _ & Hpk & _ & _ & Hsize).
  - reflexivity.
  - apply (bool_decide_unpack _). vm_compute. exact I.
  - split; [discriminate | reflexivity].
  - reflexivity.
  - lia.
  - exists k, v, h'. split; [exact Hpk | exact Hsize].
Defined.

Lemma Permutation_remove_key (k : jsval) (l : list jsval) :
  NoDup l -> k ∈ l ->
  l ≡ₚ k :: List.filter (fun k' => negb (strict_eq k' k)) l.
Proof.
  induction l as [|x l IH]; [by intros _ ?%elem_of_nil|].
  intros [Hx Hnd]%NoDup_cons Hk. simpl. unfold strict_eq at 1.
  case_bool_decide as Heq; simpl.
  - subst x. by rewrite filter_ne_absent.
  - apply elem_of_cons in Hk as [->|Hk]; [done|].
    rewrite (IH Hnd Hk) at 1. apply perm_swap.
Qed.

(** X22.  On a well-formed collection of [n] entries, [n] calls of
    [pullRandomKey()], whatever [Math.random()] returns each time, return
    the keys of the collection, each exactly once, in some order; the
    collection is then empty and a further call returns [undefined] and
    changes nothing. *)
Theorem pullRandomKey_drains (h : heap) this c (rnds : list Q) (ks : list jsval) :
  h !! this = Some c ->
  wf c ->
  Forall is_random rnds ->
  returns (get_keys this) h ks ->
  length rnds = length ks ->
  exists (pulled : list jsval) (h' : heap),
    pullRandomKeys this rnds h = (Ok pulled, h') /\
    pulled ≡ₚ ks /\
    NoDup pulled /\
    returns (get_size this) h' 0 /\
    forall rnd, pullRandomKey this rnd h' = (Ok VUndefined, h').
Proof.
  intros Hthis Hwf Hrnds Hks Hlen.
  pose proof (get_keys_run _ _ _ Hthis) as Hks'.
  unfold returns in Hks, Hks'. rewrite Hks' in Hks. injection Hks as <-.
  cut (exists (pulled : list jsval) c',
         pullRandomKeys this rnds h = (Ok pulled, <[this := c']> h) /\
         pulled ≡ₚ JsMap.keys (_map c) /\ _map c' = []).
  { intros (pulled & c' & Hrun & Hperm & Hempty).
    exists pulled, (<[this := c']> h). split; [done|]. split; [done|].
    split; [rewrite Hperm; apply Hwf|].
    assert (Hc' : (<[this := c']> h) !! this = Some c') by apply lookup_insert_eq.
    split.
    - pose proof (get_size_run _ _ _ Hc') as Hsize. by rewrite Hempty in Hsize.
    - intros rnd. by apply (pullRandomKey_empty _ _ _ Hc' Hempty). }
  clear Hks'. revert h c Hthis Hwf Hlen.
  induction Hrnds as [|rnd rnds Hrnd Hrnds IH]; intros h c Hthis Hwf Hlen.
  - exists [], c. simpl in Hlen. symmetry in Hlen.
    apply length_zero_iff_nil in Hlen. unfold JsMap.keys in Hlen.
    apply fmap_nil_inv in Hlen.
    split; [|split; [by rewrite Hlen | done]].
    simpl. unfold ret. by rewrite insert_id.
  - destruct (pull_run _ _ _ rnd Hthis Hwf Hrnd)
      as (k & v & c1 & _ & Hhas & _ & Hmap & Hpk & _).
    { intros Hnil. by rewrite Hnil in Hlen. }
    assert (Hc1 : (<[this := c1]> h) !! this = Some c1) by apply lookup_insert_eq.
    assert (Hwf1 : wf c1).
    { apply (wf_same_map (with_map c (JsMap.delete k (_map c)).2)); [done|].
      by apply evolves_delete. }
    assert (Hkeys1 : JsMap.keys (_map c1)
                     = List.filter (fun k' => negb (strict_eq k' k))
                         (JsMap.keys (_map c)))
      by (rewrite Hmap; apply JsMap_keys_delete_filter, Hwf).
    assert (Hperm : JsMap.keys (_map c) ≡ₚ k :: JsMap.keys (_map c1)).
    { rewrite Hkeys1. apply Permutation_remove_key; [apply Hwf|].
      by apply JsMapFacts.has_elem_of. }
    destruct (IH _ c1 Hc1 Hwf1) as (pulled & c' & Hrun & Hperm' & Hempty).
    { apply Permutation_length in Hperm. simpl in *. lia. }
    exists (k :: pulled), c'. split; [|split; [|done]].
    + simpl. rewrite (bind_ok _ _ _ _ _ Hpk). rewrite (bind_ok _ _ _ _ _ Hrun).
      unfold ret. by rewrite insert_insert_eq.
    + by rewrite Hperm, Hperm'.
Qed.

Lemma pullRandomKey_drains_witness :
  exists (pulled : list jsval) (h' : heap),
    pullRandomKeys 0%nat [1 # 2; 0 # 1]
      ({[ 0%nat := mkCollection true None false None
                     [(VStr "a", VNum 5); (VStr "b", VNum 6)] ]} : heap)
    = (Ok pulled, h') /\
    pulled ≡ₚ [VStr "a"; VStr "b"] /\
    returns (get_size 0%nat) h' 0.
Proof.
  destruct (pullRandomKey_drains
              ({[ 0%nat := mkCollection true None false None
                             [(VStr "a", VNum 5); (VStr "b", VNum 6)] ]} : heap)
              0%nat
              (mkCollection true None false None
                 [(VStr "a", VNum 5); (VStr "b", VNum 6)])
              [1 # 2; 0 # 1] [VStr "a"; VStr "b"])
    as (pulled & h' & Hrun & Hperm & _ & Hsize & _).
  - reflexivity.
  - apply (bool_decide_unpack _). vm_compute. exact I.
  - repeat constructor; discriminate.
  - reflexivity.
  - reflexivity.
  - exists pulled, h'. split; [exact Hrun|]. split; [exact Hperm | exact Hsize].
Defined.

(** ** Iteration and lookup *)

(** X25.  On a well-formed collection, [keysAndValues] yields exactly the
    associations the lookups confirm: a pair [(k, v)] is yielded if and
    only if the collection has the key [k] and [key(k)] is [v]. *)
Theorem iteration_agrees_with_lookup (h : heap) this c kvs k v :
  h !! this = Some c ->
  wf c ->
  returns (get_keysAndValues this) h kvs ->
  (k, v) ∈ kvs <->
  returns (hasKey this k) h true /\ returns (key this k) h v.
Proof.
  intros Hthis [Hnd _] Hkvs.
  pose proof (get_keysAndValues_run _ _ _ Hthis) as Hkvs'.
  unfold returns in Hkvs, Hkvs'. rewrite Hkvs' in Hkvs. injection Hkvs as <-.
  unfold JsMap.entries. split.
  - intros [j Hj]%list_elem_of_lookup_1.
    destruct (entry_at _ _ _ _ _ _ Hthis Hnd Hj) as (_ & _ & Hhas & _ & _ & Hkey).
    done.
  - intros [Hhas Hkey].
    pose proof (hasKey_run _ _ _ Hthis k) as Hhas'.
    pose proof (key_run _ _ _ Hthis k) as Hkey'.
    unfold returns in Hhas, Hkey, Hhas', Hkey'.
    rewrite Hhas' in Hhas. rewrite Hkey' in Hkey.
    injection Hhas as Hhas. injection Hkey as Hkey.
    apply JsMapFacts.has_elem_of in Hhas. unfold JsMap.keys in Hhas.
    apply list_elem_of_fmap in Hhas as ([k' v'] & -> & Hin). simpl in *.
    apply list_elem_of_lookup_1 in Hin as [j Hj].
    rewrite (JsMap_get_lookup _ _ _ _ Hnd Hj) in Hkey. subst v'.
    by eapply list_elem_of_lookup_2.
Qed.

Lemma iteration_agrees_with_lookup_witness :
  (VStr "b", VNum 6) ∈ [(VStr "a", VNum 5); (VStr "b", VNum 6)] <->
  returns (hasKey 0%nat (VStr "b"))
    ({[ 0%nat := mkCollection true None false None
                   [(VStr "a", VNum 5); (VStr "b", VNum 6)] ]} : heap) true /\
  returns (key 0%nat (VStr "b"))
    ({[ 0%nat := mkCollection true None false None
                   [(VStr "a", VNum 5); (VStr "b", VNum 6)] ]} : heap) (VNum 6).
Proof.
  apply (iteration_agrees_with_lookup
           ({[ 0%nat := mkCollection true None false None
                          [(VStr "a", VNum 5); (VStr "b", VNum 6)] ]} : heap)
           0%nat
           (mkCollection true None false None
              [(VStr "a", VNum 5); (VStr "b", VNum 6)])).
  - reflexivity.
  - apply (bool_decide_unpack _). vm_compute. exact I.
  - reflexivity.
Defined.

(** ** The object [toObject] returns *)

Lemma foldl_insert_lookup (m : JsMap.t) (P : gmap string jsval) (s : string) :
  NoDup (JsMap.keys m) ->
  forallb is_plain_string_key (JsMap.keys m) = true ->
  foldl (fun P pv => <[pv.1 := pv.2]> P) P (property_of <$> m) !! s
  = if JsMap.has (VStr s) m then Some (JsMap.get (VStr s) m) else P !! s.
Proof.
  unfold JsMap.keys. revert P.
  induction m as [|[k v] m IH]; intros P; csimpl; [done|].
  intros [Hk Hnd]%NoDup_cons [Hplain Hm]%andb_prop.
  destruct (is_plain_string_key_inv k Hplain) as [Heq _].
  rewrite IH by done.
  case_decide as Hks.
  - subst k. simpl.
    rewrite (proj2 (JsMapFacts.has_false_not_elem_of (VStr s) m)) by done.
    apply lookup_insert_eq.
  - destruct (JsMap.has (VStr s) m); [done|].
    apply lookup_insert_ne. intros <-. by rewrite Heq in Hks.
Qed.

(** X23.  On a well-formed collection whose keys are all strings other
    than [__proto__], the object [toObject()] returns has, for every string
    [s], the property [s] exactly when the collection has the key [s], with
    the value [key(s)] returns; its prototype is untouched. *)
Theorem toObject_lookup (h : heap) this c o (s : string) :
  h !! this = Some c ->
  wf c ->
  forallb is_plain_string_key (JsMap.keys (_map c)) = true ->
  returns (toObject this) h o ->
  proto o = None /\
  exists (b : bool) (v : jsval),
    returns (hasKey this (VStr s)) h b /\
    returns (key this (VStr s)) h v /\
    props o !! s = if b then Some v else None.
Proof.
  intros Hthis [Hnd _] Hplain Hobj.
  pose proof (toObject_run _ _ _ Hthis) as Hobj'.
  unfold returns in Hobj, Hobj'. rewrite Hobj' in Hobj. injection Hobj as <-.
  unfold empty_object. rewrite obj_set_all_plain by done. simpl.
  split; [done|].
  exists (JsMap.has (VStr s) (_map c)), (JsMap.get (VStr s) (_map c)).
  split; [by apply hasKey_run|]. split; [by apply key_run|].
  rewrite foldl_insert_lookup by done.
  by destruct (JsMap.has (VStr s) (_map c)).
Qed.

Lemma toObject_lookup_witness :
  proto (mkObject (<["b" := VNum 6]> (<["a" := VNum 5]> ∅)) None) = None /\
  exists (b : bool) (v : jsval),
    returns (hasKey 0%nat (VStr "b"))
      ({[ 0%nat := mkCollection true None false None
                     [(VStr "a", VNum 5); (VStr "b", VNum 6)] ]} : heap) b /\
    returns (key 0%nat (VStr "b"))
      ({[ 0%nat := mkCollection true None false None
                     [(VStr "a", VNum 5); (VStr "b", VNum 6)] ]} : heap) v /\
    props (mkObject (<["b" := VNum 6]> (<["a" := VNum 5]> ∅)) None) !! "b"
    = if b then Some v else None.
Proof.
  apply (toObject_lookup
           ({[ 0%nat := mkCollection true None false None
                          [(VStr "a", VNum 5); (VStr "b", VNum 6)] ]} : heap)
           0%nat
           (mkCollection true None false None
              [(VStr "a", VNum 5); (VStr "b", VNum 6)])).
  - reflexivity.
  - apply (bool_decide_unpack _). vm_compute. exact I.
  - reflexivity.
  - reflexivity.
Defined.





